(** * sigcpp::array<T, N>: a shallow embedding of [include/array.h]

    The class template is embedded over a small object memory: every
    [array] instance is a block holding its [values] member, references
    and raw pointers are block/offset pairs, and member functions are
    computations in a monad that threads the memory and records how a C++
    call ends: a normal return, a thrown exception or undefined behaviour
    (client loops, which are run with fuel, may also run out of it). *)

From stdpp Require Import base option list gmap strings.
From Stdlib Require Import ZArith Lia.

Local Open Scope Z_scope.

(** ** Sizes *)

(** [std::size_t], taken as on a 64-bit target: an unsigned 64-bit
    integer, embedded in [Z] with its wrap-around. *)
Definition size_type_modulus : Z := 2 ^ 64.

Definition size_type_sub (x y : Z) : Z := (x - y) mod size_type_modulus.

(** ** Pointers and references *)

Definition block := positive.

(** A raw [T*]: null, or an element position [ofs] inside the storage of
    the object [b] (the one-past-the-end position included). *)
Inductive pointer : Type :=
| nullptr
| Ptr (b : block) (ofs : Z).

#[global] Instance pointer_eq_dec : EqDecision pointer.
Proof. solve_decision. Defined.

(** A [T&] is the position of the element it is bound to. *)
Definition reference : Type := pointer.

(** ** Exceptions *)

(** The only exception class the header constructs. *)
Inductive exception_object : Type :=
| out_of_range (what_arg : string).

Definition what (e : exception_object) : string :=
  match e with out_of_range s => s end.

(** Address of an object created by a [new]-expression. *)
Definition free_store_address := nat.

(** The operand of a [throw]: [throw E(...)] throws the object itself,
    [throw new E(...)] throws a pointer to an object on the free store. *)
Inductive thrown : Type :=
| thrown_object (e : exception_object)
| thrown_pointer (p : free_store_address).

(** Handler matching: [catch (const std::out_of_range&)] is entered for
    an exception object of that class, and never for a pointer. *)
Definition caught_by_out_of_range_handler (t : thrown) : bool :=
  match t with
  | thrown_object (out_of_range _) => true
  | thrown_pointer _ => false
  end.

(** A handler declared for a pointer to [std::out_of_range] is the one
    that is entered for a thrown pointer. *)
Definition caught_by_pointer_handler (t : thrown) : bool :=
  match t with
  | thrown_object _ => false
  | thrown_pointer _ => true
  end.

(** ** Machine state *)

Record machine (T : Type) : Type := Machine {
  objects : gmap block (list T);       (* [values] of every live array *)
  free_store : list exception_object   (* objects created by [new] *)
}.
Arguments Machine {T} _ _.
Arguments objects {T} _.
Arguments free_store {T} _.

(** How a computation ends. *)
Inductive outcome (T A : Type) : Type :=
| Normal (a : A) (m : machine T)
| Throws (e : thrown) (m : machine T)
| Undefined
| OutOfFuel.
Arguments Normal {T A} _ _.
Arguments Throws {T A} _ _.
Arguments Undefined {T A}.
Arguments OutOfFuel {T A}.

Definition M (T A : Type) : Type := machine T → outcome T A.

#[global] Instance M_ret {T} : MRet (M T) := λ A a m, Normal a m.

#[global] Instance M_bind {T} : MBind (M T) := λ A B k c m,
  match c m with
  | Normal a m' => k a m'
  | Throws e m' => Throws e m'
  | Undefined => Undefined
  | OutOfFuel => OutOfFuel
  end.

Section primitives.
Context {T : Type}.

Definition undefined {A} : M T A := λ _, Undefined.
Definition out_of_fuel {A} : M T A := λ _, OutOfFuel.

(** Number of elements of the object [b], when it is live. *)
Definition extent (m : machine T) (b : block) : option Z :=
  (λ vs : list T, Z.of_nat (length vs)) <$> objects m !! b.

(** Lvalue-to-rvalue conversion through a reference or pointer. *)
Definition load (p : pointer) : M T T := λ m,
  match p with
  | nullptr => Undefined
  | Ptr b ofs =>
      if 0 <=? ofs then
        match objects m !! b ≫= (λ vs : list T, vs !! Z.to_nat ofs) with
        | Some v => Normal v m
        | None => Undefined
        end
      else Undefined
  end.

(** Assignment through a reference or pointer. *)
Definition store (p : pointer) (v : T) : M T unit := λ m,
  match p with
  | nullptr => Undefined
  | Ptr b ofs =>
      match objects m !! b with
      | Some vs =>
          if (0 <=? ofs) && (ofs <? Z.of_nat (length vs)) then
            Normal tt (Machine (<[b := <[Z.to_nat ofs := v]> vs]> (objects m))
                               (free_store m))
          else Undefined
      | None => Undefined
      end
  end.

(** [p + n]: stays inside the object or one past its end; [nullptr + 0]
    is the only arithmetic allowed on the null pointer. *)
Definition ptr_add (p : pointer) (n : Z) : M T pointer := λ m,
  match p with
  | nullptr => if n =? 0 then Normal nullptr m else Undefined
  | Ptr b ofs =>
      match extent m b with
      | Some len =>
          if (0 <=? ofs + n) && (ofs + n <=? len) then Normal (Ptr b (ofs + n)) m
          else Undefined
      | None => Undefined
      end
  end.

(** [*p] as an lvalue: [p] has to point at an element. *)
Definition indirection (p : pointer) : M T reference := λ m,
  match p with
  | nullptr => Undefined
  | Ptr b ofs =>
      match extent m b with
      | Some len =>
          if (0 <=? ofs) && (ofs <? len) then Normal (Ptr b ofs) m else Undefined
      | None => Undefined
      end
  end.

(** Built-in subscript [p[pos]], that is [*(p + pos)]. *)
Definition subscript (p : pointer) (pos : Z) : M T reference :=
  q ← ptr_add p pos; indirection q.

(** [throw new E(...)]: the object is created on the free store and the
    pointer to it is thrown. *)
Definition throw_new {A} (e : exception_object) : M T A := λ m,
  Throws (thrown_pointer (length (free_store m)))
         (Machine (objects m) (free_store m ++ [e])).

(** The exception object a thrown operand designates. *)
Definition exception_of (m : machine T) (t : thrown) : option exception_object :=
  match t with
  | thrown_object e => Some e
  | thrown_pointer p => free_store m !! p
  end.

End primitives.

(** ** The standard algorithms and adaptors the header calls *)

Module std.
Section algorithms.
Context {T : Type}.

(** [std::fill_n(first, n, value)]:
    [for (; n > 0; --n, ++first) *first = value; return first;]
    [value] is a [const T&] and is read again at every assignment. *)
Fixpoint fill_n_loop (n : nat) (first : pointer) (value : reference)
  : M T pointer :=
  match n with
  | O => mret first
  | S n' =>
      v ← load value;
      store first v;;
      first' ← ptr_add first 1;
      fill_n_loop n' first' value
  end.

Definition fill_n (first : pointer) (n : Z) (value : reference) : M T pointer :=
  fill_n_loop (Z.to_nat n) first value.

(** [std::iter_swap(a, b)], that is [std::swap] of the two pointees:
    [T tmp = *a; *a = *b; *b = tmp;] *)
Definition iter_swap (a b : pointer) : M T unit :=
  tmp ← load a;
  vb ← load b;
  store a vb;;
  store b tmp.

(** The body of [std::swap_ranges], run once per position of the first
    range. *)
Fixpoint swap_ranges_loop (n : nat) (first1 first2 : pointer) : M T pointer :=
  match n with
  | O => mret first2
  | S n' =>
      iter_swap first1 first2;;
      first1' ← ptr_add first1 1;
      first2' ← ptr_add first2 1;
      swap_ranges_loop n' first1' first2'
  end.

(** [std::swap_ranges(first1, last1, first2)]:
    [for (; first1 != last1; ++first1, ++first2) iter_swap(first1, first2);
     return first2;]
    [first1, last1) has to be a range of one object, which the loop then
    walks in [last1 - first1] steps; the loop itself does not look at
    whether the two ranges share positions. *)
Definition swap_ranges (first1 last1 first2 : pointer) : M T pointer :=
  match first1, last1 with
  | nullptr, nullptr => mret first2
  | Ptr b1 o1, Ptr b1' l1 =>
      if bool_decide (b1 = b1') && (o1 <=? l1) then
        swap_ranges_loop (Z.to_nat (l1 - o1)) first1 first2
      else undefined
  | _, _ => undefined
  end.

End algorithms.
End std.

(** ** Iterators *)

(** What a traversal needs from an iterator type: [*it], [++it] and
    [it == other]. *)
Class Iterator (T I : Type) : Type := {
  iter_deref : I → M T reference;
  iter_incr : I → M T I;
  iter_eqb : I → I → bool
}.

(** Modelled from the spec: [array_iterator.h] is not part of the sources
    at hand.  The specification describes [array_iterator<P>] as a
    lightweight cursor wrapping a raw position into the array's storage,
    with movement by fixed offsets, equality comparison and dereference,
    none of them bounds-checked, and a default-constructed value that is
    the canonical empty position, equal to itself. *)
Record array_iterator : Type := ArrayIterator { it_ptr : pointer }.

(** Modelled from the spec: the default-constructed, canonical empty
    position of [array_iterator.h]. *)
Definition array_iterator_default : array_iterator := ArrayIterator nullptr.

(** Modelled from the spec: equality of two [array_iterator.h] cursors is
    equality of the wrapped positions. *)
Definition array_iterator_eqb (x y : array_iterator) : bool :=
  bool_decide (it_ptr x = it_ptr y).

Section array_iterator_ops.
Context {T : Type}.

(** Modelled from the spec: movement of an [array_iterator.h] cursor by
    a fixed offset is pointer arithmetic on the wrapped position. *)
Definition array_iterator_advance (it : array_iterator) (n : Z)
  : M T array_iterator :=
  p ← ptr_add (it_ptr it) n; mret (ArrayIterator p).

(** Modelled from the spec: [++it] of [array_iterator.h]. *)
Definition array_iterator_incr (it : array_iterator) : M T array_iterator :=
  array_iterator_advance it 1.

(** Modelled from the spec: [--it] of [array_iterator.h]. *)
Definition array_iterator_decr (it : array_iterator) : M T array_iterator :=
  array_iterator_advance it (-1).

(** Modelled from the spec: [*it] of [array_iterator.h] is the element
    at the wrapped position. *)
Definition array_iterator_deref (it : array_iterator) : M T reference :=
  indirection (it_ptr it).

#[global] Instance array_iterator_Iterator : Iterator T array_iterator := {
  iter_deref := array_iterator_deref;
  iter_incr := array_iterator_incr;
  iter_eqb := array_iterator_eqb
}.

(** [std::reverse_iterator<Iter>] over the forward iterator: it keeps a
    forward iterator [current]; [*r] is [Iter tmp = current; return *--tmp;],
    [++r] is [--current], and [r == s] is [r.base() == s.base()]. *)
Record reverse_iterator : Type := ReverseIterator { current : array_iterator }.

Definition reverse_iterator_deref (r : reverse_iterator) : M T reference :=
  tmp ← array_iterator_decr (current r); array_iterator_deref tmp.

Definition reverse_iterator_incr (r : reverse_iterator) : M T reverse_iterator :=
  c ← array_iterator_decr (current r); mret (ReverseIterator c).

Definition reverse_iterator_eqb (r s : reverse_iterator) : bool :=
  array_iterator_eqb (current r) (current s).

#[global] Instance reverse_iterator_Iterator : Iterator T reverse_iterator := {
  iter_deref := reverse_iterator_deref;
  iter_incr := reverse_iterator_incr;
  iter_eqb := reverse_iterator_eqb
}.

(** The client loop
    [for (; it != last; ++it) out.push_back( *it );]
    over any iterator type, with [fuel] bounding the number of steps. *)
Fixpoint traverse {I} `{!Iterator T I} (fuel : nat) (it last : I) : M T (list T) :=
  if iter_eqb it last then mret []
  else
    match fuel with
    | O => out_of_fuel
    | S fuel' =>
        r ← iter_deref it;
        v ← load r;
        it' ← iter_incr it;
        vs ← traverse fuel' it' last;
        mret (v :: vs)
    end.

End array_iterator_ops.

(** ** [template<typename T, std::size_t N> struct array] *)

Module array.
Section methods.
Context {T : Type}.

(** The template argument [N]. *)
Variable N : Z.

Abbreviation iterator := array_iterator (only parsing).
Abbreviation const_iterator := array_iterator (only parsing).
Abbreviation const_reverse_iterator := reverse_iterator (only parsing).

(** The member [value_type values[N]] of the instance [this], as the
    pointer to its first element it decays to. *)
Definition values (this : block) : pointer := Ptr this 0.

(** *** utility *)

Definition fill (this : block) (u : reference) : M T unit :=
  std.fill_n (values this) N u;;
  mret tt.

Definition swap (this a : block) : M T unit :=
  last ← ptr_add (values this) N;
  std.swap_ranges (values this) last (values a);;
  mret tt.

(** *** iterators *)

Definition begin (this : block) : M T iterator :=
  if N =? 0 then mret array_iterator_default
  else mret (ArrayIterator (values this)).

Definition begin_const (this : block) : M T const_iterator :=
  if N =? 0 then mret array_iterator_default
  else mret (ArrayIterator (values this)).

Definition end_ (this : block) : M T iterator :=
  if N =? 0 then mret array_iterator_default
  else p ← ptr_add (values this) N; mret (ArrayIterator p).

Definition end_const (this : block) : M T const_iterator :=
  if N =? 0 then mret array_iterator_default
  else p ← ptr_add (values this) N; mret (ArrayIterator p).

Definition rbegin (this : block) : M T reverse_iterator :=
  e ← end_ this; mret (ReverseIterator e).

Definition rbegin_const (this : block) : M T const_reverse_iterator :=
  e ← end_const this; mret (ReverseIterator e).

Definition rend (this : block) : M T reverse_iterator :=
  b ← begin this; mret (ReverseIterator b).

Definition rend_const (this : block) : M T const_reverse_iterator :=
  b ← begin_const this; mret (ReverseIterator b).

Definition cbegin (this : block) : M T const_iterator := begin_const this.
Definition cend (this : block) : M T const_iterator := end_const this.
Definition crbegin (this : block) : M T const_reverse_iterator := rbegin_const this.
Definition crend (this : block) : M T const_reverse_iterator := rend_const this.

(** *** capacity *)

Definition empty (this : block) : M T bool := mret (N =? 0).
Definition size (this : block) : M T Z := mret N.
Definition max_size (this : block) : M T Z := mret N.

(** *** unchecked element access *)

Definition operator_subscript (this : block) (pos : Z) : M T reference :=
  subscript (values this) pos.

Definition operator_subscript_const (this : block) (pos : Z) : M T reference :=
  subscript (values this) pos.

(** *** checked element access *)

Definition at_ (this : block) (pos : Z) : M T reference :=
  if pos <? N then subscript (values this) pos
  else throw_new (out_of_range "array index out of range").

Definition at_const (this : block) (pos : Z) : M T reference :=
  if pos <? N then subscript (values this) pos
  else throw_new (out_of_range "array index out of range").

Definition front (this : block) : M T reference := subscript (values this) 0.
Definition front_const (this : block) : M T reference := subscript (values this) 0.

Definition back (this : block) : M T reference :=
  e ← empty this;
  if e : bool then front this
  else subscript (values this) (size_type_sub N 1).

Definition back_const (this : block) : M T reference :=
  if N =? 0 then front_const this
  else subscript (values this) (size_type_sub N 1).

(** *** underlying raw data *)

Definition data (this : block) : M T pointer :=
  if N =? 0 then mret nullptr else mret (values this).

Definition data_const (this : block) : M T pointer :=
  if N =? 0 then mret nullptr else mret (values this).

End methods.
End array.

(** ** Instances and client code *)

Section clients.
Context {T : Type}.

(** [this] is a live [array<T, N>] whose elements are [vs], in index
    order. *)
Definition is_array (N : Z) (m : machine T) (this : block) (vs : list T) : Prop :=
  objects m !! this = Some vs ∧ Z.of_nat (length vs) = N.

(** [for (auto it = a.begin(); it != a.end(); ++it) ...] *)
Definition forward_traversal (N : Z) (fuel : nat) (a : block) : M T (list T) :=
  first ← array.begin N a;
  last ← array.end_ N a;
  traverse fuel first last.

(** [for (auto it = a.rbegin(); it != a.rend(); ++it) ...] *)
Definition reverse_traversal (N : Z) (fuel : nat) (a : block) : M T (list T) :=
  first ← array.rbegin N a;
  last ← array.rend N a;
  traverse fuel first last.

(** [return a.at(pos);] read as a value. *)
Definition read_at (N : Z) (a : block) (pos : Z) : M T T :=
  r ← array.at_ N a pos; load r.

(** [return a[pos];] read as a value. *)
Definition read_subscript (a : block) (pos : Z) : M T T :=
  r ← array.operator_subscript a pos; load r.

(** [a.at(pos) = v;] *)
Definition write_at (N : Z) (a : block) (pos : Z) (v : T) : M T unit :=
  r ← array.at_ N a pos; store r v.

(** [a[pos] = v;] *)
Definition write_subscript (a : block) (pos : Z) (v : T) : M T unit :=
  r ← array.operator_subscript a pos; store r v.

(** [auto x = a.begin(); auto y = a.begin(); return x == y;] *)
Definition begin_twice (N : Z) (a : block) : M T bool :=
  x ← array.begin N a;
  y ← array.begin N a;
  mret (array_iterator_eqb x y).

(** The same four on a [const] array, where overload resolution picks the
    [const] members. *)
Definition read_at_const (N : Z) (a : block) (pos : Z) : M T T :=
  r ← array.at_const N a pos; load r.

Definition read_subscript_const (a : block) (pos : Z) : M T T :=
  r ← array.operator_subscript_const a pos; load r.

(** [for (auto it = a.begin(); it != a.end(); ++it) ...], [a] const. *)
Definition forward_traversal_const (N : Z) (fuel : nat) (a : block) : M T (list T) :=
  first ← array.begin_const N a;
  last ← array.end_const N a;
  traverse fuel first last.

(** [for (auto it = a.cbegin(); it != a.cend(); ++it) ...] *)
Definition forward_traversal_c (N : Z) (fuel : nat) (a : block) : M T (list T) :=
  first ← array.cbegin N a;
  last ← array.cend N a;
  traverse fuel first last.

(** [for (auto it = a.rbegin(); it != a.rend(); ++it) ...], [a] const. *)
Definition reverse_traversal_const (N : Z) (fuel : nat) (a : block) : M T (list T) :=
  first ← array.rbegin_const N a;
  last ← array.rend_const N a;
  traverse fuel first last.

(** [for (auto it = a.crbegin(); it != a.crend(); ++it) ...] *)
Definition reverse_traversal_c (N : Z) (fuel : nat) (a : block) : M T (list T) :=
  first ← array.crbegin N a;
  last ← array.crend N a;
  traverse fuel first last.

(** [auto x = a.begin(); auto y = a.begin(); return x == y;], [a] const. *)
Definition begin_const_twice (N : Z) (a : block) : M T bool :=
  x ← array.begin_const N a;
  y ← array.begin_const N a;
  mret (array_iterator_eqb x y).

End clients.

(** ** More client code *)

Section more_clients.
Context {T : Type}.

(** [return a.begin() == a.end();] *)
Definition begin_equals_end (N : Z) (a : block) : M T bool :=
  b ← array.begin N a;
  e ← array.end_ N a;
  mret (array_iterator_eqb b e).

(** [return *a.begin();] as a reference. *)
Definition deref_begin (N : Z) (a : block) : M T reference :=
  b ← array.begin N a; array_iterator_deref b.

(** [return *a.end();] as a reference. *)
Definition deref_end (N : Z) (a : block) : M T reference :=
  e ← array.end_ N a; array_iterator_deref e.

(** [return *a.rbegin();] as a reference. *)
Definition deref_rbegin (N : Z) (a : block) : M T reference :=
  r ← array.rbegin N a; reverse_iterator_deref r.

(** [return *a.rend();] as a reference. *)
Definition deref_rend (N : Z) (a : block) : M T reference :=
  r ← array.rend N a; reverse_iterator_deref r.

(** [*(a.begin() + i) = v;] *)
Definition write_iterator (N : Z) (a : block) (i : Z) (v : T) : M T unit :=
  b ← array.begin N a;
  it ← array_iterator_advance b i;
  r ← array_iterator_deref it;
  store r v.

(** [auto it = a.begin() + i; a.swap(b); return *it;] *)
Definition iterator_across_swap (N : Z) (a b : block) (i : Z) : M T T :=
  first ← array.begin N a;
  it ← array_iterator_advance first i;
  array.swap N a b;;
  r ← array_iterator_deref it;
  load r.

(** [return a.data()[i];] as a reference. *)
Definition data_subscript (N : Z) (a : block) (i : Z) : M T reference :=
  p ← array.data N a; subscript p i.

(** [a.fill(u); for (auto it = a.begin(); it != a.end(); ++it) ...] *)
Definition fill_then_traverse (N : Z) (fuel : nat) (a : block) (u : reference)
  : M T (list T) :=
  array.fill N a u;;
  forward_traversal N fuel a.

(** [a.swap(b); a.swap(b);] *)
Definition swap_twice (N : Z) (a b : block) : M T unit :=
  array.swap N a b;;
  array.swap N a b.

End more_clients.

(** ** The test driver, [test/driver.cpp] *)

Module driver.

(** [==] on [std::string] and [std::string_view]. *)
Local Infix "==" := String.eqb (at level 70, no associativity).

(** The enumerators of [passReportMode] the driver names; the enumeration
    itself is declared in [tester.h]. *)
Inductive passReportMode : Type := detail | indicate | none.

(** What the driver does to the outside: the calls into the tester, whose
    functions are declared in [tester.h], and its own output.  A run is
    observed as the list of these events, oldest first. *)
Inductive event : Type :=
| setFailThreshold (threshold : Z)
| setPassReportMode (mode : passReportMode)
| setHeaderText (text : string)
| setOutput_cout
| setOutput_fileOut
| cerr (text : string)
| fileOut_open (path : string) (append : bool)
| runTests
| cout (text : string)
| summarizeTests.

(** How a piece of the driver ends: with a value, in undefined behaviour,
    or with its loop fuel used up. *)
Inductive run (A : Type) : Type :=
| Done (a : A)
| UndefinedBehaviour
| NoFuel.
Arguments Done {A} _.
Arguments UndefinedBehaviour {A}.
Arguments NoFuel {A}.

(** How [processCmdLine] is left: by returning, or by an exception that
    passes through it. *)
Inductive exit : Type :=
| Returned (trace : list event)
| Escaped (trace : list event).

(** The local variables the argument loop assigns. *)
Record options : Type := Options {
  printHeader : bool;
  printSummary : bool;
  headerText : string;
  passReportModeName : string;    (* the local [std::string passReportMode] *)
  failThreshold : Z;
  fileOpenMode : string;
  outputFilename : string
}.

Definition defaultHeaderText : string := "Running $exe".

Definition initial_options : options :=
  Options true true defaultHeaderText "auto" 0 "" "".

Definition set_printHeader (b : bool) (o : options) : options :=
  Options b (printSummary o) (headerText o) (passReportModeName o)
          (failThreshold o) (fileOpenMode o) (outputFilename o).

Definition set_printSummary (b : bool) (o : options) : options :=
  Options (printHeader o) b (headerText o) (passReportModeName o)
          (failThreshold o) (fileOpenMode o) (outputFilename o).

Definition set_headerText (t : string) (o : options) : options :=
  Options (printHeader o) (printSummary o) t (passReportModeName o)
          (failThreshold o) (fileOpenMode o) (outputFilename o).

Definition set_passReportModeName (t : string) (o : options) : options :=
  Options (printHeader o) (printSummary o) (headerText o) t
          (failThreshold o) (fileOpenMode o) (outputFilename o).

Definition set_failThreshold (t : Z) (o : options) : options :=
  Options (printHeader o) (printSummary o) (headerText o) (passReportModeName o)
          t (fileOpenMode o) (outputFilename o).

Definition set_output (mode name : string) (o : options) : options :=
  Options (printHeader o) (printSummary o) (headerText o) (passReportModeName o)
          (failThreshold o) mode name.

(** *** [std::from_chars] into an [unsigned short] *)

Definition USHRT_MAX : Z := 65535.

Definition digit_of (c : Ascii.ascii) : option Z :=
  let n := Z.of_nat (Ascii.nat_of_ascii c) in
  if (48 <=? n)%Z && (n <=? 57)%Z then Some (n - 48)%Z else None.

Fixpoint leading_digits (s : string) : list Z :=
  match s with
  | EmptyString => []
  | String c s' =>
      match digit_of c with
      | Some d => d :: leading_digits s'
      | None => []
      end
  end.

Definition decimal_value (ds : list Z) : Z :=
  fold_left (λ acc d, 10 * acc + d)%Z ds 0%Z.

(** [std::from_chars(first, last, value)], base 10, [value] an
    [unsigned short]: the longest prefix of decimal digits is converted (no
    sign, no leading white space); [value] is assigned when there is such a
    prefix and its number is representable, and left as it is otherwise. *)
Definition from_chars (s : string) (value : Z) : Z :=
  match leading_digits s with
  | [] => value
  | ds => if (decimal_value ds <=? USHRT_MAX)%Z then decimal_value ds else value
  end.

(** *** The argument loop *)

Definition is_file_flag (s : string) : bool :=
  (s == "-f") || (s == "-fo") || (s == "-fa").

(** The flags the loop acts on. *)
Definition recognised (s : string) : bool :=
  (s == "-h") || (s == "-ht") || (s == "-p") || (s == "-s") || (s == "-t")
  || is_file_flag s.

(** The body of the loop at [arguments[i] = flag]; [next] is what
    [arguments[i + 1]] finds, [None] when [i + 1] is not an index of the
    vector, where the unchecked [operator[]] is undefined. *)
Definition loop_body (flag : string) (next : option string)
    (st : options * list event) : run (options * list event) :=
  let '(o, trace) := st in
  if flag == "-h" then
    match next with
    | Some v => Done (set_printHeader (negb (v == "no")) o, trace)
    | None => UndefinedBehaviour
    end
  else if flag == "-ht" then
    match next with
    | Some v => Done (set_headerText v o, trace)
    | None => UndefinedBehaviour
    end
  else if flag == "-p" then
    match next with
    | Some v => Done (set_passReportModeName v o, trace)
    | None => UndefinedBehaviour
    end
  else if flag == "-s" then
    match next with
    | Some v => Done (set_printSummary (negb (v == "no")) o, trace)
    | None => UndefinedBehaviour
    end
  else if flag == "-t" then
    match next with
    | Some v =>
        let t := from_chars v (failThreshold o) in
        Done (set_failThreshold t o, trace ++ [setFailThreshold t])
    | None => UndefinedBehaviour
    end
  else if is_file_flag flag then
    match next with
    | Some v => Done (set_output flag v o, trace)
    | None => UndefinedBehaviour
    end
  else Done (o, trace).

(** [for (std::size_t i = 1; i < arguments.size(); i += 2) ...] *)
Fixpoint parse_loop (fuel : nat) (arguments : list string) (i : nat)
    (st : options * list event) : run (options * list event) :=
  match arguments !! i with
  | None => Done st                      (* [i < arguments.size()] fails *)
  | Some flag =>
      match fuel with
      | O => NoFuel
      | S fuel' =>
          match loop_body flag (arguments !! (i + 1)%nat) st with
          | Done st' => parse_loop fuel' arguments (i + 2) st'
          | UndefinedBehaviour => UndefinedBehaviour
          | NoFuel => NoFuel
          end
      end
  end.

(** The arguments after the program name read two by two, as a
    specification of what the index loop does. *)
Fixpoint parse_pairs (rest : list string) (st : options * list event)
    : run (options * list event) :=
  match rest with
  | [] => Done st
  | flag :: rest' =>
      match rest' with
      | [] => loop_body flag None st
      | value :: rest'' =>
          match loop_body flag (Some value) st with
          | Done st' => parse_pairs rest'' st'
          | UndefinedBehaviour => UndefinedBehaviour
          | NoFuel => NoFuel
          end
      end
  end.

(** *** The [$exe] macro *)

(** [s.find(needle)]: the first position at which [needle] occurs. *)
Fixpoint find (needle s : string) : option nat :=
  if String.prefix needle s then Some 0%nat
  else
    match s with
    | EmptyString => None
    | String _ s' => S <$> find needle s'
    end.

Fixpoint string_take (n : nat) (s : string) : string :=
  match n, s with
  | S n', String c s' => String c (string_take n' s')
  | _, _ => EmptyString
  end.

Fixpoint string_drop (n : nat) (s : string) : string :=
  match n, s with
  | S n', String _ s' => string_drop n' s'
  | _, _ => s
  end.

(** [s.replace(pos, len, str)] *)
Definition replace (pos len : nat) (str s : string) : string :=
  string_take pos s +:+ str +:+ string_drop (pos + len) s.

(** [for (pos = text.find("$exe"); pos != npos; pos = text.find("$exe"))
       text.replace(pos, 4, filenameNoExtension);] *)
Fixpoint expand (fuel : nat) (text filenameNoExtension : string) : run string :=
  match find "$exe" text with
  | None => Done text
  | Some macroPosition =>
      match fuel with
      | O => NoFuel
      | S fuel' =>
          expand fuel' (replace macroPosition 4 filenameNoExtension text)
                 filenameNoExtension
      end
  end.

(** *** After the loop *)

(** How [runTests()], defined by the unit under test, ends. *)
Inductive tests_outcome : Type :=
| tests_return
| tests_throw_string (msg : string)
| tests_throw_other.

(** What the driver asks of the file system and of the tests. *)
Record environment : Type := Environment {
  (* [path(p).replace_extension("").filename().string()] *)
  filename_no_extension : string → string;
  (* [path(p).extension()] *)
  extension : string → string;
  (* [path(p).replace_extension(e)] *)
  replace_extension : string → string → string;
  (* [std::filesystem::exists(p)] *)
  file_exists : string → bool;
  (* [fileOut.is_open()] after [fileOut.open(p, mode)] *)
  opens : string → bool → bool;
  tests : tests_outcome
}.

Definition pass_report_events (o : options) : list event :=
  if passReportModeName o == "detail" then [setPassReportMode detail]
  else if passReportModeName o == "indicate" then [setPassReportMode indicate]
  else if passReportModeName o == "none" then [setPassReportMode none]
  else if passReportModeName o == "auto" then
    if fileOpenMode o == "" then [setPassReportMode none]
    else [setPassReportMode indicate]
  else [].

Definition newline : string := String (Ascii.ascii_of_nat 10) EmptyString.

(** [try { runTests(); } catch (const std::string& msg) {...}
    if (printSummary) summarizeTests();] *)
Definition run_tests (env : environment) (o : options) (trace : list event) : exit :=
  let summary := if printSummary o then [summarizeTests] else [] in
  match tests env with
  | tests_return => Returned (trace ++ [runTests] ++ summary)
  | tests_throw_string msg =>
      Returned (trace ++ [runTests; cout (msg +:+ newline)] ++ summary)
  | tests_throw_other => Escaped (trace ++ [runTests])
  end.

(** The statements from [setOutput] on. *)
Definition open_output (env : environment) (o : options) (outputFilename : string)
    (trace : list event) : exit :=
  if outputFilename == "" then run_tests env o (trace ++ [setOutput_cout])
  else
    let trace := trace ++ [setOutput_fileOut] in
    let outputFilePath :=
      if extension env outputFilename == ""
      then replace_extension env outputFilename ".out"
      else outputFilename in
    if (fileOpenMode o == "-f") && file_exists env outputFilePath then
      Returned (trace ++ [cerr "Output file alredy exists"])
    else
      let append := fileOpenMode o == "-fa" in
      let trace := trace ++ [fileOut_open outputFilePath append] in
      if opens env outputFilePath append then run_tests env o trace
      else Returned (trace ++ [cerr "Error opening output file"]).

(** The statements after the argument loop. *)
Definition after_parse (env : environment) (fuel : nat) (arguments : list string)
    (st : options * list event) : run exit :=
  let '(o, trace) := st in
  let trace := trace ++ pass_report_events o in
  match arguments !! 0%nat with
  | None => UndefinedBehaviour
  | Some exe =>
      let filenameNoExtension := filename_no_extension env exe in
      match
        (if printHeader o && negb (headerText o == "")
         then expand fuel (headerText o) filenameNoExtension
         else Done "")
      with
      | Done header =>
          let trace := trace ++ [setHeaderText header] in
          match
            (if negb (outputFilename o == "")
             then expand fuel (outputFilename o) filenameNoExtension
             else Done (outputFilename o))
          with
          | Done name => Done (open_output env o name trace)
          | UndefinedBehaviour => UndefinedBehaviour
          | NoFuel => NoFuel
          end
      | UndefinedBehaviour => UndefinedBehaviour
      | NoFuel => NoFuel
      end
  end.

(** [void processCmdLine(std::vector<std::string_view> arguments)];
    [fuel] bounds the steps of each of the two [$exe] loops. *)
Definition processCmdLine (env : environment) (fuel : nat) (arguments : list string)
    : run exit :=
  match parse_loop (length arguments) arguments 1 (initial_options, []) with
  | Done st => after_parse env fuel arguments st
  | UndefinedBehaviour => UndefinedBehaviour
  | NoFuel => NoFuel
  end.

(** The trace of a run that has one. *)
Definition trace_of (e : exit) : list event :=
  match e with Returned t | Escaped t => t end.

End driver.

(** The number of [$] characters of a string, the measure under which
    the [$exe] loop of the driver is shown to end. *)
Fixpoint dollars (s : string) : nat :=
  match s with
  | EmptyString => 0%nat
  | String c s' =>
      ((if Ascii.eqb c (Ascii.ascii_of_nat 36) then 1 else 0) + dollars s')%nat
  end.

(** The events of the driver that prepare the tester and the output, as
    opposed to the diagnostics, the tests and what follows them. *)
Definition setup_event (e : driver.event) : bool :=
  match e with
  | driver.cerr _ | driver.runTests | driver.cout _ | driver.summarizeTests => false
  | _ => true
  end.

(** What the flag/value pairs say about the summary: the last [-s]
    decides, [no] switching the summary off and anything else on; with no
    [-s] it is on. *)
Definition summary_on (pairs : list (string * string)) : bool :=
  match last (filter (λ p, p.1 = "-s") pairs) with
  | Some p => negb (String.eqb p.2 "no")
  | None => true
  end.

(** ** Sample environments of the driver

    A file system in which every file exists and opens, the program name
    of every path being [driver], with tests that return, that throw a
    [std::string], and that throw something else. *)

Definition sample_env_with (t : driver.tests_outcome) : driver.environment :=
  driver.Environment (λ _, "driver") (λ _, "") (λ p e, p +:+ e)
                     (λ _, true) (λ _ _, true) t.

Definition sample_env : driver.environment := sample_env_with driver.tests_return.

(** ** Sample machines

    Two [array<int, 3>] objects and one [array<int, 0>] object, used to
    run the definitions on concrete inputs. *)

Definition sample_objects : gmap block (list Z) :=
  <[1%positive := [1; 2; 3]]> (<[2%positive := [4; 5; 6]]> (<[3%positive := []]> ∅)).

Definition sample : machine Z := Machine sample_objects [].

(** * Properties *)

(** ** Running computations *)

Section monad_facts.
Context {T : Type}.

Lemma bind_Normal {A B} (c : M T A) (k : A → M T B) m a m' :
  c m = Normal a m' → (c ≫= k) m = k a m'.
Proof. intros H. unfold mbind, M_bind. by rewrite H. Qed.

Lemma bind_Throws {A B} (c : M T A) (k : A → M T B) m e m' :
  c m = Throws e m' → (c ≫= k) m = Throws e m'.
Proof. intros H. unfold mbind, M_bind. by rewrite H. Qed.

Lemma bind_Undefined {A B} (c : M T A) (k : A → M T B) m :
  c m = Undefined → (c ≫= k) m = Undefined.
Proof. intros H. unfold mbind, M_bind. by rewrite H. Qed.

Lemma bind_ret {A B} (a : A) (k : A → M T B) m : (mret a ≫= k) m = k a m.
Proof. reflexivity. Qed.

End monad_facts.

(** [run H] executes the first command of the computation in the goal,
    [H] being the equation that gives its normal result. *)
Tactic Notation "run" uconstr(H) := rewrite (bind_Normal _ _ _ _ _ H).

(** ** The memory primitives on a live array *)

Section memory_facts.
Context {T : Type}.
Implicit Types (m : machine T) (vs : list T) (a b : block).

Lemma is_array_length N m a vs : is_array N m a vs → length vs = Z.to_nat N.
Proof. intros [_ <-]. by rewrite Nat2Z.id. Qed.

Lemma is_array_nonneg N m a vs : is_array N m a vs → 0 <= N.
Proof. intros [_ <-]. lia. Qed.

Lemma is_array_inj N m a vs ws : is_array N m a vs → is_array N m a ws → vs = ws.
Proof. intros [H1 _] [H2 _]. congruence. Qed.

Lemma extent_is_array N m a vs : is_array N m a vs → extent m a = Some N.
Proof. intros [H1 H2]. unfold extent. rewrite H1. simpl. by rewrite H2. Qed.

Lemma ptr_add_is_array N m a vs ofs n :
  is_array N m a vs → 0 <= ofs + n <= N →
  ptr_add (Ptr a ofs) n m = Normal (Ptr a (ofs + n)) m.
Proof.
  intros Ha Hr. unfold ptr_add. rewrite (extent_is_array _ _ _ _ Ha).
  destruct (Z.leb_spec 0 (ofs + n)), (Z.leb_spec (ofs + n) N); simpl; first done; lia.
Qed.

Lemma indirection_is_array N m a vs ofs :
  is_array N m a vs → 0 <= ofs < N →
  indirection (Ptr a ofs) m = Normal (Ptr a ofs) m.
Proof.
  intros Ha Hr. unfold indirection. rewrite (extent_is_array _ _ _ _ Ha).
  destruct (Z.leb_spec 0 ofs), (Z.ltb_spec ofs N); simpl; first done; lia.
Qed.

Lemma indirection_past_end N m a vs ofs :
  is_array N m a vs → N <= ofs → indirection (Ptr a ofs) m = Undefined.
Proof.
  intros Ha Hr. unfold indirection. rewrite (extent_is_array _ _ _ _ Ha).
  destruct (Z.ltb_spec ofs N); first lia. by rewrite andb_false_r.
Qed.

Lemma subscript_is_array N m a vs pos :
  is_array N m a vs → 0 <= pos < N →
  subscript (array.values a) pos m = Normal (Ptr a pos) m.
Proof.
  intros Ha Hr. unfold subscript, array.values.
  run (ptr_add_is_array _ _ _ _ 0 pos Ha ltac:(lia)).
  simpl. by apply (indirection_is_array N m a vs).
Qed.

Lemma subscript_out_of_bounds N m a vs pos :
  is_array N m a vs → N <= pos → subscript (array.values a) pos m = Undefined.
Proof.
  intros Ha Hr. unfold subscript, array.values, mbind, M_bind, ptr_add.
  rewrite (extent_is_array _ _ _ _ Ha).
  destruct ((0 <=? 0 + pos) && (0 + pos <=? N)); last done.
  by apply (indirection_past_end N m a vs); [|lia].
Qed.

Lemma load_is_array N m a vs ofs v :
  is_array N m a vs → 0 <= ofs → vs !! Z.to_nat ofs = Some v →
  load (Ptr a ofs) m = Normal v m.
Proof.
  intros [Ha _] Hr Hv. unfold load. destruct (Z.leb_spec 0 ofs); last lia.
  rewrite Ha. simpl. by rewrite Hv.
Qed.

Lemma store_is_array N m a vs ofs v :
  is_array N m a vs → 0 <= ofs < N →
  store (Ptr a ofs) v m =
    Normal tt (Machine (<[a := <[Z.to_nat ofs := v]> vs]> (objects m)) (free_store m)).
Proof.
  intros [Ha Hl] Hr. unfold store. rewrite Ha, Hl.
  destruct (Z.leb_spec 0 ofs), (Z.ltb_spec ofs N); simpl; first done; lia.
Qed.

(** Writing an element keeps the object a live [array<T, N>]. *)
Lemma is_array_store N m a vs i v :
  is_array N m a vs →
  is_array N (Machine (<[a := <[i := v]> vs]> (objects m)) (free_store m)) a (<[i := v]> vs).
Proof.
  intros [Ha Hl]. split; simpl.
  - by rewrite lookup_insert_eq.
  - by rewrite length_insert.
Qed.

Lemma is_array_store_other N m a b vs ws i v :
  a ≠ b → is_array N m b ws →
  is_array N (Machine (<[a := <[i := v]> vs]> (objects m)) (free_store m)) b ws.
Proof.
  intros Hne [Hb Hl]. split; simpl; last done.
  by rewrite lookup_insert_ne.
Qed.

End memory_facts.

(** ** Checked and unchecked element access *)

Section element_access.
Context {T : Type}.
Implicit Types (m : machine T) (vs : list T) (a : block).

Lemma at_in_range N m a vs pos :
  is_array N m a vs → 0 <= pos < N →
  array.at_ N a pos m = Normal (Ptr a pos) m.
Proof.
  intros Ha Hr. unfold array.at_.
  destruct (Z.ltb_spec pos N); last lia.
  by apply (subscript_is_array N m a vs).
Qed.

Lemma at_const_in_range N m a vs pos :
  is_array N m a vs → 0 <= pos < N →
  array.at_const N a pos m = Normal (Ptr a pos) m.
Proof.
  intros Ha Hr. unfold array.at_const.
  destruct (Z.ltb_spec pos N); last lia.
  by apply (subscript_is_array N m a vs).
Qed.

(** On the failing path [at] creates the exception object on the free
    store and throws the pointer to it. *)
Lemma at_out_of_range N m a pos :
  N <= pos →
  array.at_ N a pos m =
    Throws (thrown_pointer (length (free_store m)))
           (Machine (objects m)
                    (free_store m ++ [out_of_range "array index out of range"])).
Proof.
  intros Hr. unfold array.at_. by destruct (Z.ltb_spec pos N); first lia.
Qed.

Lemma at_const_out_of_range N m a pos :
  N <= pos →
  array.at_const N a pos m =
    Throws (thrown_pointer (length (free_store m)))
           (Machine (objects m)
                    (free_store m ++ [out_of_range "array index out of range"])).
Proof.
  intros Hr. unfold array.at_const. by destruct (Z.ltb_spec pos N); first lia.
Qed.

(** The thrown pointer designates an [out_of_range] object whose message
    is the one given in the source. *)
Lemma at_out_of_range_message N m a pos e m' :
  N <= pos → array.at_ N a pos m = Throws e m' →
  what <$> exception_of m' e = Some "array index out of range"%string.
Proof.
  intros Hr. rewrite at_out_of_range by done. intros [= <- <-]. simpl.
  by rewrite lookup_app_r, Nat.sub_diag.
Qed.

(** Whatever the instance and the position, the exception of the failing
    path is not one a handler for the class [std::out_of_range] catches. *)
Lemma at_out_of_range_not_caught N m a pos e m' :
  N <= pos → array.at_ N a pos m = Throws e m' →
  caught_by_out_of_range_handler e = false ∧ caught_by_pointer_handler e = true.
Proof.
  intros Hr. rewrite at_out_of_range by done. by intros [= <- <-].
Qed.

Lemma operator_subscript_in_range N m a vs pos :
  is_array N m a vs → 0 <= pos < N →
  array.operator_subscript a pos m = Normal (Ptr a pos) m.
Proof. intros. by apply (subscript_is_array N m a vs). Qed.

End element_access.

(** C1: [at(pos)] is meant to fail with an OutOfRange error.  On
    [array<int, 3> a = {1, 2, 3}] the call [a.at(5)] runs
    [throw new std::out_of_range(...)]: what is thrown is a pointer to an
    object left on the free store, which a handler for the class
    [std::out_of_range] does not catch. *)
Theorem at_throws_pointer_not_out_of_range :
  array.at_ 3 1%positive 5 sample =
    Throws (thrown_pointer 0%nat)
           (Machine sample_objects [out_of_range "array index out of range"])
  ∧ caught_by_out_of_range_handler (thrown_pointer 0%nat) = false
  ∧ caught_by_pointer_handler (thrown_pointer 0%nat) = true
  ∧ array.at_ 3 1%positive 3 sample = array.at_ 3 1%positive 5 sample
  ∧ array.at_ 3 1%positive 2 sample = Normal (Ptr 1%positive 2) sample.
Proof. repeat split; vm_compute; reflexivity. Qed.

Section access_claims.
Context {T : Type}.
Implicit Types (m : machine T) (vs : list T) (a : block).

(** C2: on a live [array<T, N>] and a position [0 <= pos < N], [at(pos)]
    and [operator[](pos)], in their mutable and their [const] overloads,
    all return the same reference, and a value written through either
    mutable accessor is the value read back through all four. *)
Theorem at_and_subscript_same_element N m a vs pos :
  is_array N m a vs → 0 <= pos < N →
  array.at_ N a pos m = Normal (Ptr a pos) m
  ∧ array.operator_subscript a pos m = Normal (Ptr a pos) m
  ∧ array.at_const N a pos m = Normal (Ptr a pos) m
  ∧ array.operator_subscript_const a pos m = Normal (Ptr a pos) m
  ∧ ∀ v, ∃ m',
      write_at N a pos v m = Normal tt m'
      ∧ write_subscript a pos v m = Normal tt m'
      ∧ read_at N a pos m' = Normal v m'
      ∧ read_subscript a pos m' = Normal v m'
      ∧ read_at_const N a pos m' = Normal v m'
      ∧ read_subscript_const a pos m' = Normal v m'.
Proof.
  intros Ha Hr.
  pose proof (at_in_range N m a vs pos Ha Hr) as Hat.
  pose proof (operator_subscript_in_range N m a vs pos Ha Hr) as Hsub.
  pose proof (at_const_in_range N m a vs pos Ha Hr) as Hatc.
  pose proof (subscript_is_array N m a vs pos Ha Hr) as Hsubc.
  split_and!; [done..|]. intros v.
  pose proof (is_array_store N m a vs (Z.to_nat pos) v Ha) as Ha'.
  set (m' := Machine _ _) in Ha'. exists m'.
  assert (Hload : load (Ptr a pos) m' = Normal v m').
  { apply (load_is_array N m' a (<[Z.to_nat pos := v]> vs)); [done|lia|].
    apply list_lookup_insert_eq. rewrite (is_array_length _ _ _ _ Ha). lia. }
  split_and!.
  - unfold write_at. run Hat.
    by apply (store_is_array N m a vs).
  - unfold write_subscript. run Hsub.
    by apply (store_is_array N m a vs).
  - unfold read_at.
    by run (at_in_range N m' a _ pos Ha' Hr).
  - unfold read_subscript.
    by run (operator_subscript_in_range N m' a _ pos Ha' Hr).
  - unfold read_at_const.
    by run (at_const_in_range N m' a _ pos Ha' Hr).
  - unfold read_subscript_const, array.operator_subscript_const.
    by run (subscript_is_array N m' a _ pos Ha' Hr).
Qed.

(** C9: a call [at(pos)] with [pos >= N] fails by throwing, and the
    failing call leaves the elements of the array (and of every other
    object) as they were. *)
Theorem at_failure_preserves_elements N m a vs pos :
  is_array N m a vs → N <= pos →
  ∃ e m',
    array.at_ N a pos m = Throws e m'
    ∧ array.at_const N a pos m = Throws e m'
    ∧ objects m' = objects m
    ∧ is_array N m' a vs.
Proof.
  intros Ha Hr. eexists _, _. split_and!.
  - by apply at_out_of_range.
  - by apply at_const_out_of_range.
  - done.
  - done.
Qed.

(** C7: on a live [array<T, N>] with [N > 0], [front()] returns the
    reference to the element at index 0 and [back()] the reference to the
    element at index [N - 1]; reading them gives the first and the last
    element. *)
Theorem front_back_first_last N m a vs :
  is_array N m a vs → 0 < N < size_type_modulus →
  array.front a m = Normal (Ptr a 0) m
  ∧ array.front_const a m = Normal (Ptr a 0) m
  ∧ array.back N a m = Normal (Ptr a (N - 1)) m
  ∧ array.back_const N a m = Normal (Ptr a (N - 1)) m
  ∧ (∃ x, head vs = Some x ∧ load (Ptr a 0) m = Normal x m)
  ∧ (∃ y, last vs = Some y ∧ load (Ptr a (N - 1)) m = Normal y m).
Proof.
  intros Ha Hr.
  assert (Hsub : size_type_sub N 1 = N - 1).
  { unfold size_type_sub. apply Z.mod_small. lia. }
  assert (Hlen : length vs = Z.to_nat N) by by apply (is_array_length N m a).
  split_and!.
  - apply (subscript_is_array N m a vs); [done|lia].
  - apply (subscript_is_array N m a vs); [done|lia].
  - unfold array.back, array.empty. rewrite bind_ret.
    destruct (Z.eqb_spec N 0); first lia.
    rewrite Hsub. apply (subscript_is_array N m a vs); [done|lia].
  - unfold array.back_const.
    destruct (Z.eqb_spec N 0); first lia.
    rewrite Hsub. apply (subscript_is_array N m a vs); [done|lia].
  - destruct vs as [|x vs']; first (simpl in Hlen; lia).
    exists x. split; first done.
    by apply (load_is_array N m a (x :: vs')); [|lia|].
  - destruct (last vs) as [y|] eqn:Hy.
    + exists y. split; first done.
      apply (load_is_array N m a vs); [done|lia|].
      rewrite last_lookup in Hy. rewrite <- Hy. f_equal. lia.
    + apply last_None in Hy. subst vs. simpl in Hlen. lia.
Qed.

(** C10: on a live [array<T, N>] with [N > 0] the mutable [back()], which
    tests [empty()] at run time, and the const [back()], which branches on
    [N == 0] at compile time, return the same reference, the one to
    [values[N - 1]]. *)
Theorem back_overloads_agree N m a vs :
  is_array N m a vs → 0 < N < size_type_modulus →
  array.back N a m = array.back_const N a m
  ∧ array.back_const N a m = subscript (array.values a) (N - 1) m
  ∧ subscript (array.values a) (N - 1) m = Normal (Ptr a (N - 1)) m.
Proof.
  intros Ha Hr.
  assert (Hsub : size_type_sub N 1 = N - 1).
  { unfold size_type_sub. apply Z.mod_small. lia. }
  split_and!.
  - unfold array.back, array.back_const, array.empty. rewrite bind_ret.
    by destruct (N =? 0).
  - unfold array.back_const. destruct (Z.eqb_spec N 0); first lia.
    by rewrite Hsub.
  - apply (subscript_is_array N m a vs); [done|lia].
Qed.

(** C8: [empty()] returns true exactly when [N == 0], and [size()] and
    [max_size()] return [N], in every machine state, whatever the
    instance holds and whatever ran before. *)
Theorem capacity_is_N N m a :
  (∃ e, array.empty N a m = Normal e m ∧ (e = true ↔ N = 0))
  ∧ array.size N a m = Normal N m
  ∧ array.max_size N a m = Normal N m.
Proof.
  split_and!; [|done..].
  exists (N =? 0). split; first done. apply Z.eqb_eq.
Qed.

(** C6: for [N = 0], [empty()] is true, [size()] is 0, every [begin]
    variant returns an iterator equal to the one of the matching [end]
    variant (mutable, const, [c]-prefixed and reverse alike), and [data()]
    is the null pointer. *)
Theorem zero_length_array m a :
  array.empty 0 a m = Normal true m
  ∧ array.size 0 a m = Normal 0 m
  ∧ (∃ b e, array.begin (T:=T) 0 a m = Normal b m ∧ array.end_ 0 a m = Normal e m
            ∧ array_iterator_eqb b e = true)
  ∧ (∃ b e, array.begin_const (T:=T) 0 a m = Normal b m
            ∧ array.end_const 0 a m = Normal e m
            ∧ array_iterator_eqb b e = true)
  ∧ (∃ b e, array.cbegin (T:=T) 0 a m = Normal b m ∧ array.cend 0 a m = Normal e m
            ∧ array_iterator_eqb b e = true)
  ∧ (∃ b e, array.rbegin (T:=T) 0 a m = Normal b m ∧ array.rend 0 a m = Normal e m
            ∧ reverse_iterator_eqb b e = true)
  ∧ (∃ b e, array.rbegin_const (T:=T) 0 a m = Normal b m
            ∧ array.rend_const 0 a m = Normal e m
            ∧ reverse_iterator_eqb b e = true)
  ∧ (∃ b e, array.crbegin (T:=T) 0 a m = Normal b m ∧ array.crend 0 a m = Normal e m
            ∧ reverse_iterator_eqb b e = true)
  ∧ array.data 0 a m = Normal nullptr m
  ∧ array.data_const 0 a m = Normal nullptr m.
Proof.
  split_and!; try done.
  - by exists array_iterator_default, array_iterator_default.
  - by exists array_iterator_default, array_iterator_default.
  - by exists array_iterator_default, array_iterator_default.
  - by exists (ReverseIterator array_iterator_default),
              (ReverseIterator array_iterator_default).
  - by exists (ReverseIterator array_iterator_default),
              (ReverseIterator array_iterator_default).
  - by exists (ReverseIterator array_iterator_default),
              (ReverseIterator array_iterator_default).
Qed.

End access_claims.

(** ** Traversals *)

Section traversal.
Context {T : Type}.
Implicit Types (m : machine T) (vs : list T) (a : block).

Lemma array_iterator_eqb_Ptr a i j :
  array_iterator_eqb (ArrayIterator (Ptr a i)) (ArrayIterator (Ptr a j))
  = bool_decide (i = j).
Proof.
  unfold array_iterator_eqb. simpl.
  apply bool_decide_ext. split; [by intros [= ->] | by intros ->].
Qed.

Lemma reverse_iterator_eqb_Ptr a i j :
  reverse_iterator_eqb (ReverseIterator (ArrayIterator (Ptr a i)))
                       (ReverseIterator (ArrayIterator (Ptr a j)))
  = bool_decide (i = j).
Proof. apply array_iterator_eqb_Ptr. Qed.

(** Walking forward from position [i] to the end position visits the
    elements from index [i] on, in index order. *)
Lemma traverse_forward_from N m a vs (Ha : is_array N m a vs) (k : nat) :
  ∀ (n : nat) (i : Z), 0 <= i → i + Z.of_nat n = N →
    traverse (n + k) (ArrayIterator (Ptr a i)) (ArrayIterator (Ptr a N)) m
    = Normal (drop (Z.to_nat i) vs) m.
Proof.
  pose proof (is_array_length _ _ _ _ Ha) as Hlen.
  induction n as [|n IH]; intros i Hi Hn.
  - assert (i = N) as -> by lia.
    destruct k; simpl; rewrite array_iterator_eqb_Ptr, bool_decide_eq_true_2 by done;
      unfold mret, M_ret; by rewrite drop_ge by lia.
  - simpl. rewrite array_iterator_eqb_Ptr, bool_decide_eq_false_2 by lia.
    destruct (lookup_lt_is_Some_2 vs (Z.to_nat i)) as [v Hv]; first lia.
    unfold array_iterator_deref, array_iterator_incr, array_iterator_advance. simpl.
    run (indirection_is_array N m a vs i Ha ltac:(lia)).
    run (load_is_array N m a vs i v Ha Hi Hv).
    rewrite (bind_Normal _ _ m (ArrayIterator (Ptr a (i + 1))) m).
    + run (IH (i + 1) ltac:(lia) ltac:(lia)).
      unfold mret, M_ret. f_equal.
      replace (Z.to_nat (i + 1)) with (S (Z.to_nat i)) by lia.
      symmetry. by apply drop_S.
    + by run (ptr_add_is_array N m a vs i 1 Ha ltac:(lia)).
Qed.

(** Walking a reverse iterator from base position [j] to the base
    position 0 visits the elements below index [j], highest index first. *)
Lemma traverse_reverse_from N m a vs (Ha : is_array N m a vs) (k : nat) :
  ∀ j : nat, (j ≤ length vs)%nat →
    traverse (j + k) (ReverseIterator (ArrayIterator (Ptr a (Z.of_nat j))))
             (ReverseIterator (ArrayIterator (Ptr a 0))) m
    = Normal (reverse (take j vs)) m.
Proof.
  pose proof (is_array_length _ _ _ _ Ha) as Hlen.
  induction j as [|j IH]; intros Hj.
  - destruct k; simpl;
      rewrite reverse_iterator_eqb_Ptr, bool_decide_eq_true_2 by done; done.
  - simpl traverse.
    rewrite reverse_iterator_eqb_Ptr, bool_decide_eq_false_2 by lia.
    destruct (lookup_lt_is_Some_2 vs j) as [v Hv]; first lia.
    assert (Hdecr : array_iterator_decr (T:=T) (ArrayIterator (Ptr a (Z.of_nat (S j)))) m
                    = Normal (ArrayIterator (Ptr a (Z.of_nat j))) m).
    { unfold array_iterator_decr, array_iterator_advance. simpl it_ptr.
      run (ptr_add_is_array N m a vs (Z.of_nat (S j)) (-1) Ha ltac:(lia)).
      unfold mret, M_ret. do 3 f_equal. lia. }
    assert (Hderef : reverse_iterator_deref (T:=T)
                       (ReverseIterator (ArrayIterator (Ptr a (Z.of_nat (S j))))) m
                     = Normal (Ptr a (Z.of_nat j)) m).
    { unfold reverse_iterator_deref. simpl current.
      run Hdecr. unfold array_iterator_deref. simpl.
      apply (indirection_is_array N m a vs); [done|lia]. }
    assert (Hincr : reverse_iterator_incr (T:=T)
                      (ReverseIterator (ArrayIterator (Ptr a (Z.of_nat (S j))))) m
                    = Normal (ReverseIterator (ArrayIterator (Ptr a (Z.of_nat j)))) m).
    { unfold reverse_iterator_incr. simpl current.
      by run Hdecr. }
    simpl iter_deref; simpl iter_incr.
    run Hderef.
    run (load_is_array N m a vs (Z.of_nat j) v Ha ltac:(lia)
           ltac:(by rewrite Nat2Z.id)).
    run Hincr.
    run (IH ltac:(lia)).
    unfold mret, M_ret. f_equal.
    by rewrite (take_S_r vs j v Hv), reverse_snoc.
Qed.

Lemma begin_is_array N m a vs :
  is_array N m a vs →
  array.begin N a m
  = Normal (if N =? 0 then array_iterator_default else ArrayIterator (Ptr a 0)) m.
Proof. intros _. unfold array.begin. by destruct (N =? 0). Qed.

Lemma end_is_array N m a vs :
  is_array N m a vs →
  array.end_ N a m
  = Normal (if N =? 0 then array_iterator_default else ArrayIterator (Ptr a N)) m.
Proof.
  intros Ha. unfold array.end_. destruct (N =? 0); first done.
  pose proof (is_array_nonneg _ _ _ _ Ha).
  by run (ptr_add_is_array N m a vs 0 N Ha ltac:(lia)).
Qed.

Lemma rbegin_is_array N m a vs :
  is_array N m a vs →
  array.rbegin N a m
  = Normal (ReverseIterator
              (if N =? 0 then array_iterator_default else ArrayIterator (Ptr a N))) m.
Proof.
  intros Ha. unfold array.rbegin.
  by run (end_is_array N m a vs Ha).
Qed.

Lemma rend_is_array N m a vs :
  is_array N m a vs →
  array.rend N a m
  = Normal (ReverseIterator
              (if N =? 0 then array_iterator_default else ArrayIterator (Ptr a 0))) m.
Proof.
  intros Ha. unfold array.rend.
  by run (begin_is_array N m a vs Ha).
Qed.

Lemma forward_traversal_is_array N m a vs (k : nat) :
  is_array N m a vs →
  forward_traversal N (length vs + k) a m = Normal vs m.
Proof.
  intros Ha. unfold forward_traversal.
  run (begin_is_array N m a vs Ha).
  run (end_is_array N m a vs Ha).
  pose proof (is_array_length _ _ _ _ Ha) as Hlen.
  destruct (Z.eqb_spec N 0) as [->|Hne].
  - destruct vs; last done. by destruct k.
  - pose proof (proj2 Ha) as Hl.
    apply (traverse_forward_from N m a vs Ha k (length vs) 0); lia.
Qed.

Lemma reverse_traversal_is_array N m a vs (k : nat) :
  is_array N m a vs →
  reverse_traversal N (length vs + k) a m = Normal (reverse vs) m.
Proof.
  intros Ha. unfold reverse_traversal.
  run (rbegin_is_array N m a vs Ha).
  run (rend_is_array N m a vs Ha).
  pose proof (is_array_length _ _ _ _ Ha) as Hlen.
  destruct (Z.eqb_spec N 0) as [->|Hne].
  - destruct vs; last done. by destruct k.
  - pose proof (traverse_reverse_from N m a vs Ha k (length vs) ltac:(done)) as Htr.
    by rewrite (proj2 Ha), firstn_all in Htr.
Qed.

(** The [const] overloads and the [c]-prefixed members return what the
    mutable members return. *)
Lemma const_iterators_agree N a :
  array.begin_const (T:=T) N a = array.begin N a
  ∧ array.end_const (T:=T) N a = array.end_ N a
  ∧ array.rbegin_const (T:=T) N a = array.rbegin N a
  ∧ array.rend_const (T:=T) N a = array.rend N a
  ∧ array.cbegin (T:=T) N a = array.begin N a
  ∧ array.cend (T:=T) N a = array.end_ N a
  ∧ array.crbegin (T:=T) N a = array.rbegin N a
  ∧ array.crend (T:=T) N a = array.rend N a.
Proof. by split_and!. Qed.

(** C3: on a live [array<T, N>] holding [vs], the loop from [begin()] to
    [end()] terminates after visiting exactly the [N] elements of [vs] in
    index order, the loop from [rbegin()] to [rend()] visits the same
    elements in reverse order, neither changes the machine, and calling
    [begin()] again gives an iterator equal to the first one, from which
    the traversal can be run again with the same result.  The same holds
    for the [const] overloads and for [cbegin]/[cend] and
    [crbegin]/[crend]. *)
Theorem traversals_visit_all_in_order N m a vs (k : nat) :
  is_array N m a vs →
  forward_traversal N (length vs + k) a m = Normal vs m
  ∧ Z.of_nat (length vs) = N
  ∧ reverse_traversal N (length vs + k) a m = Normal (reverse vs) m
  ∧ begin_twice N a m = Normal true m
  ∧ (forward_traversal N (length vs + k) a;; forward_traversal N (length vs + k) a) m
    = Normal vs m
  ∧ forward_traversal_const N (length vs + k) a m = Normal vs m
  ∧ forward_traversal_c N (length vs + k) a m = Normal vs m
  ∧ reverse_traversal_const N (length vs + k) a m = Normal (reverse vs) m
  ∧ reverse_traversal_c N (length vs + k) a m = Normal (reverse vs) m
  ∧ begin_const_twice N a m = Normal true m
  ∧ (forward_traversal_const N (length vs + k) a;;
     forward_traversal_const N (length vs + k) a) m
    = Normal vs m.
Proof.
  intros Ha.
  pose proof (forward_traversal_is_array N m a vs k Ha) as Hfwd.
  pose proof (reverse_traversal_is_array N m a vs k Ha) as Hrev.
  destruct (const_iterators_agree N a)
    as (Hb & He & Hrb & Hre & Hcb & Hce & Hcrb & Hcre).
  assert (Htwice : begin_twice N a m = Normal true m).
  { unfold begin_twice.
    run (begin_is_array N m a vs Ha).
    run (begin_is_array N m a vs Ha).
    unfold mret, M_ret, array_iterator_eqb. by rewrite bool_decide_eq_true_2. }
  assert (Hfwdc : forward_traversal_const N (length vs + k) a m = Normal vs m).
  { unfold forward_traversal_const. rewrite Hb, He. exact Hfwd. }
  split_and!.
  - done.
  - by destruct Ha.
  - done.
  - done.
  - by run Hfwd.
  - done.
  - unfold forward_traversal_c. rewrite Hcb, Hce. exact Hfwd.
  - unfold reverse_traversal_const. rewrite Hrb, Hre. exact Hrev.
  - unfold reverse_traversal_c. rewrite Hcrb, Hcre. exact Hrev.
  - unfold begin_const_twice. rewrite Hb. exact Htwice.
  - by run Hfwdc.
Qed.

End traversal.

(** ** [fill] and [swap] *)

Section fill_and_swap.
Context {T : Type}.
Implicit Types (m : machine T) (vs ws : list T) (a b : block).

Lemma machine_eta m : Machine (objects m) (free_store m) = m.
Proof. by destruct m. Qed.

(** A reference that reads [v] still reads [v] after [v] has been stored
    anywhere, its own target included. *)
Lemma load_store_same_value (u p : pointer) (v : T) m m' :
  load u m = Normal v m → store p v m = Normal tt m' → load u m' = Normal v m'.
Proof.
  destruct u as [|bu ou]; first done. destruct p as [|bp op]; first done.
  unfold load, store.
  destruct (Z.leb_spec 0 ou) as [Hou|]; last done.
  destruct (objects m !! bp) as [ws|] eqn:Hbp; last done.
  destruct (Z.leb_spec 0 op) as [Hop|]; last done.
  destruct (Z.ltb_spec op (Z.of_nat (length ws))) as [Hop'|]; last done. simpl.
  intros Hu [= <-]. simpl.
  destruct (decide (bp = bu)) as [->|Hne].
  - rewrite lookup_insert_eq. simpl. rewrite Hbp in Hu. simpl in Hu.
    destruct (decide (Z.to_nat op = Z.to_nat ou)) as [<-|Hneq].
    + by rewrite list_lookup_insert_eq by lia.
    + rewrite list_lookup_insert_ne by done.
      destruct (ws !! Z.to_nat ou); last done. by injection Hu as ->.
  - rewrite lookup_insert_ne by done.
    destruct (objects m !! bu ≫= _); last done. by injection Hu as ->.
Qed.

(** The loop of [fill_n], started at position [i] with [n] positions to
    go, overwrites exactly the positions from [i] on. *)
Lemma fill_n_loop_is_array N a (u : reference) (v : T) :
  ∀ (n : nat) (i : Z) m ws,
    is_array N m a ws → 0 <= i → i + Z.of_nat n = N →
    load u m = Normal v m →
    std.fill_n_loop n (Ptr a i) u m
    = Normal (Ptr a N)
        (Machine (<[a := take (Z.to_nat i) ws ++ replicate n v]> (objects m))
                 (free_store m)).
Proof.
  induction n as [|n IH]; intros i m ws Ha Hi Hn Hu.
  - assert (i = N) as -> by lia. simpl. unfold mret, M_ret. f_equal.
    rewrite app_nil_r, take_ge by (rewrite (is_array_length _ _ _ _ Ha); lia).
    rewrite insert_id by apply Ha. by rewrite machine_eta.
  - pose proof (is_array_length _ _ _ _ Ha) as Hlen.
    simpl std.fill_n_loop.
    run Hu.
    pose proof (store_is_array N m a ws i v Ha ltac:(lia)) as Hst.
    run Hst.
    pose proof (is_array_store N m a ws (Z.to_nat i) v Ha) as Ha'.
    run (ptr_add_is_array N _ a _ i 1 Ha' ltac:(lia)).
    rewrite (IH (i + 1) _ _ Ha' ltac:(lia) ltac:(lia)
               (load_store_same_value u _ v m _ Hu Hst)).
    simpl. do 2 f_equal. rewrite insert_insert_eq. f_equal.
    replace (Z.to_nat (i + 1)) with (S (Z.to_nat i)) by lia.
    rewrite (take_S_r _ _ v) by (apply list_lookup_insert_eq; lia).
    rewrite take_insert_ge by lia. by rewrite <- app_assoc.
Qed.

(** C4: on a live [array<T, N>], [fill(u)] with [u] bound to a value [v]
    (an element of the array itself included) returns normally and leaves
    every element equal to [v]; for [N = 0] it changes nothing. *)
Theorem fill_overwrites_every_element N m a vs (u : reference) (v : T) :
  is_array N m a vs → load u m = Normal v m →
  ∃ m',
    array.fill N a u m = Normal tt m'
    ∧ is_array N m' a (replicate (Z.to_nat N) v)
    ∧ (∀ i, 0 <= i < N → read_subscript a i m' = Normal v m')
    ∧ (N = 0 → m' = m).
Proof.
  intros Ha Hu.
  pose proof (is_array_length _ _ _ _ Ha) as Hlen.
  pose proof (is_array_nonneg _ _ _ _ Ha) as Hnn.
  set (m' := Machine (<[a := replicate (Z.to_nat N) v]> (objects m)) (free_store m)).
  assert (Ha' : is_array N m' a (replicate (Z.to_nat N) v)).
  { split; simpl; first by rewrite lookup_insert_eq.
    rewrite length_replicate. lia. }
  exists m'. split_and!.
  - unfold array.fill, std.fill_n.
    by run (fill_n_loop_is_array N a u v (Z.to_nat N) 0 m vs Ha
              ltac:(lia) ltac:(lia) Hu).
  - done.
  - intros i Hi. unfold read_subscript.
    run (operator_subscript_in_range N m' a _ i Ha' Hi).
    apply (load_is_array N m' a (replicate (Z.to_nat N) v)); [done|lia|].
    apply lookup_replicate_2. lia.
  - intros ->. subst m'. simpl in *. destruct vs; last done.
    rewrite insert_id by apply Ha. apply machine_eta.
Qed.

(** One step of [swap_ranges] on two distinct arrays. *)
Lemma iter_swap_is_array N m a b wa wb i x y :
  a ≠ b → is_array N m a wa → is_array N m b wb → 0 <= i < N →
  wa !! Z.to_nat i = Some x → wb !! Z.to_nat i = Some y →
  std.iter_swap (Ptr a i) (Ptr b i) m
  = Normal tt
      (Machine (<[b := <[Z.to_nat i := x]> wb]>
                  (<[a := <[Z.to_nat i := y]> wa]> (objects m)))
               (free_store m)).
Proof.
  intros Hne Ha Hb Hi Hx Hy. unfold std.iter_swap.
  run (load_is_array N m a wa i x Ha ltac:(lia) Hx).
  run (load_is_array N m b wb i y Hb ltac:(lia) Hy).
  run (store_is_array N m a wa i y Ha Hi).
  by rewrite (store_is_array N _ b wb i x
                (is_array_store_other N m a b wa wb _ y Hne Hb) Hi).
Qed.

(** The loop of [swap_ranges] on two distinct arrays, started at position
    [i] with [n] positions to go, exchanges the positions from [i] on. *)
Lemma swap_ranges_loop_is_array N a b (Hne : a ≠ b) :
  ∀ (n : nat) (i : Z) m wa wb,
    is_array N m a wa → is_array N m b wb → 0 <= i → i + Z.of_nat n = N →
    std.swap_ranges_loop n (Ptr a i) (Ptr b i) m
    = Normal (Ptr b N)
        (Machine (<[b := take (Z.to_nat i) wb ++ drop (Z.to_nat i) wa]>
                    (<[a := take (Z.to_nat i) wa ++ drop (Z.to_nat i) wb]>
                       (objects m)))
                 (free_store m)).
Proof.
  induction n as [|n IH]; intros i m wa wb Ha Hb Hi Hn;
    pose proof (is_array_length _ _ _ _ Ha) as Hla;
    pose proof (is_array_length _ _ _ _ Hb) as Hlb.
  - assert (i = N) as -> by lia. simpl. unfold mret, M_ret. f_equal.
    rewrite !drop_ge, !app_nil_r, !take_ge by lia.
    rewrite (insert_id (objects m) a) by apply Ha.
    rewrite insert_id by apply Hb. by rewrite machine_eta.
  - destruct (lookup_lt_is_Some_2 wa (Z.to_nat i)) as [x Hx]; first lia.
    destruct (lookup_lt_is_Some_2 wb (Z.to_nat i)) as [y Hy]; first lia.
    simpl std.swap_ranges_loop.
    run (iter_swap_is_array N m a b wa wb i x y Hne Ha Hb ltac:(lia) Hx Hy).
    set (m1 := Machine _ _).
    assert (Ha1 : is_array N m1 a (<[Z.to_nat i := y]> wa)).
    { split; simpl; last (rewrite length_insert; lia).
      by rewrite lookup_insert_ne, lookup_insert_eq. }
    assert (Hb1 : is_array N m1 b (<[Z.to_nat i := x]> wb)).
    { split; simpl; last (rewrite length_insert; lia).
      by rewrite lookup_insert_eq. }
    run (ptr_add_is_array N m1 a _ i 1 Ha1 ltac:(lia)).
    run (ptr_add_is_array N m1 b _ i 1 Hb1 ltac:(lia)).
    rewrite (IH (i + 1) m1 _ _ Ha1 Hb1 ltac:(lia) ltac:(lia)).
    subst m1. simpl. f_equal.
    replace (Z.to_nat (i + 1)) with (S (Z.to_nat i)) by lia.
    rewrite (take_S_r (<[Z.to_nat i := y]> wa) _ y)
      by (apply list_lookup_insert_eq; lia).
    rewrite (take_S_r (<[Z.to_nat i := x]> wb) _ x)
      by (apply list_lookup_insert_eq; lia).
    rewrite !take_insert_ge, !drop_insert_lt by lia.
    rewrite <- !app_assoc. simpl.
    rewrite <- (drop_S wa _ _ Hx), <- (drop_S wb _ _ Hy).
    f_equal. apply map_eq. intros k.
    destruct (decide (k = b)) as [->|Hkb]; first by rewrite !lookup_insert_eq.
    rewrite (lookup_insert_ne _ b k) by done.
    rewrite (lookup_insert_ne _ b k) by done.
    destruct (decide (k = a)) as [->|Hka]; first by rewrite !lookup_insert_eq.
    rewrite !(lookup_insert_ne _ a k) by done.
    by rewrite !lookup_insert_ne by done.
Qed.

(** [swap] on a live array comes down to the loop of [swap_ranges] over
    all [N] positions. *)
Lemma swap_unfold N m a b va :
  is_array N m a va →
  array.swap N a b m
  = (std.swap_ranges_loop (Z.to_nat N) (Ptr a 0) (Ptr b 0);; mret tt) m.
Proof.
  intros Ha. pose proof (is_array_nonneg _ _ _ _ Ha) as Hnn.
  unfold array.swap, array.values.
  run (ptr_add_is_array N m a va 0 N Ha ltac:(lia)).
  rewrite Z.add_0_l. unfold std.swap_ranges.
  rewrite bool_decide_eq_true_2 by done.
  destruct (Z.leb_spec 0 N); last lia. simpl.
  by replace (N - 0) with N by lia.
Qed.

Lemma swap_distinct_arrays N m a b va vb :
  is_array N m a va → is_array N m b vb → a ≠ b →
  array.swap N a b m
  = Normal tt (Machine (<[b := va]> (<[a := vb]> (objects m))) (free_store m)).
Proof.
  intros Ha Hb Hne. pose proof (is_array_nonneg _ _ _ _ Ha) as Hnn.
  rewrite (swap_unfold N m a b va Ha).
  run (swap_ranges_loop_is_array N a b Hne (Z.to_nat N) 0 m va vb Ha Hb
         ltac:(lia) ltac:(lia)).
  by simpl.
Qed.

(** Swapping an element with itself changes nothing. *)
Lemma iter_swap_same N m a wa i :
  is_array N m a wa → 0 <= i < N →
  std.iter_swap (Ptr a i) (Ptr a i) m = Normal tt m.
Proof.
  intros Ha Hi.
  destruct (lookup_lt_is_Some_2 wa (Z.to_nat i)) as [x Hx];
    first (rewrite (is_array_length _ _ _ _ Ha); lia).
  assert (Hst : store (Ptr a i) x m = Normal tt m).
  { rewrite (store_is_array N m a wa i x Ha Hi). f_equal.
    rewrite (list_insert_id wa _ x Hx), insert_id by apply Ha.
    apply machine_eta. }
  unfold std.iter_swap.
  run (load_is_array N m a wa i x Ha ltac:(lia) Hx).
  run (load_is_array N m a wa i x Ha ltac:(lia) Hx).
  by run Hst.
Qed.

(** The loop of [swap_ranges] run on one array against itself, as
    [a.swap(a)] does, leaves the machine as it was. *)
Lemma swap_ranges_loop_same N m a wa (Ha : is_array N m a wa) :
  ∀ (n : nat) (i : Z), 0 <= i → i + Z.of_nat n = N →
    std.swap_ranges_loop n (Ptr a i) (Ptr a i) m = Normal (Ptr a N) m.
Proof.
  induction n as [|n IH]; intros i Hi Hn.
  - by assert (i = N) as -> by lia.
  - simpl std.swap_ranges_loop.
    run (iter_swap_same N m a wa i Ha ltac:(lia)).
    run (ptr_add_is_array N m a wa i 1 Ha ltac:(lia)).
    run (ptr_add_is_array N m a wa i 1 Ha ltac:(lia)).
    apply IH; lia.
Qed.

Lemma swap_self N m a va :
  is_array N m a va → array.swap N a a m = Normal tt m.
Proof.
  intros Ha. pose proof (is_array_nonneg _ _ _ _ Ha) as Hnn.
  rewrite (swap_unfold N m a a va Ha).
  by run (swap_ranges_loop_same N m a va Ha (Z.to_nat N) 0 ltac:(lia) ltac:(lia)).
Qed.

(** C5: for every two live instances [a] and [b] of [array<T, N>], the
    same instance taken twice included, [a.swap(b)] returns normally, after
    which [a] holds the elements [b] held before, index by index, and [b]
    holds those [a] held. *)
Theorem swap_exchanges_elements N m a b va vb :
  is_array N m a va → is_array N m b vb →
  ∃ m',
    array.swap N a b m = Normal tt m'
    ∧ is_array N m' a vb
    ∧ is_array N m' b va
    ∧ (∀ i, 0 <= i < N →
         ∃ x y, read_subscript a i m = Normal x m
                ∧ read_subscript b i m = Normal y m
                ∧ read_subscript a i m' = Normal y m'
                ∧ read_subscript b i m' = Normal x m').
Proof.
  intros Ha Hb.
  assert (Hread : ∀ mm c ws i, is_array N mm c ws → 0 <= i < N →
            ∃ x, ws !! Z.to_nat i = Some x ∧ read_subscript c i mm = Normal x mm).
  { intros mm c ws i Hc Hi.
    destruct (lookup_lt_is_Some_2 ws (Z.to_nat i)) as [x Hx];
      first (rewrite (is_array_length _ _ _ _ Hc); lia).
    exists x. split; first done. unfold read_subscript.
    run (operator_subscript_in_range N mm c ws i Hc Hi).
    apply (load_is_array N mm c ws); [done|lia|done]. }
  destruct (decide (a = b)) as [->|Hne].
  - pose proof (is_array_inj N m b va vb Ha Hb) as ->.
    exists m. split_and!; [by apply (swap_self N m b vb)|done..|].
    intros i Hi. destruct (Hread m b vb i Hb Hi) as (x & _ & Hrx).
    by exists x, x.
  - set (m' := Machine (<[b := va]> (<[a := vb]> (objects m))) (free_store m)).
    assert (Ha' : is_array N m' a vb).
    { split; simpl; last apply Hb. by rewrite lookup_insert_ne, lookup_insert_eq. }
    assert (Hb' : is_array N m' b va).
    { split; simpl; last apply Ha. by rewrite lookup_insert_eq. }
    exists m'. split_and!; [by apply swap_distinct_arrays|done..|].
    intros i Hi.
    destruct (Hread m a va i Ha Hi) as (x & Hx & Hrx).
    destruct (Hread m b vb i Hb Hi) as (y & Hy & Hry).
    destruct (Hread m' a vb i Ha' Hi) as (y' & Hy' & Hry').
    destruct (Hread m' b va i Hb' Hi) as (x' & Hx' & Hrx').
    exists x, y. split_and!; [done..| |]; congruence.
Qed.

End fill_and_swap.

(** ** The definitions run on the sample machine *)

Example sample_fill :
  array.fill 3 1%positive (Ptr 2%positive 0) sample
  = Normal tt (Machine (<[1%positive := [4; 4; 4]]> sample_objects) []).
Proof. vm_compute. reflexivity. Qed.

(** [a.fill(a[1])]: the argument is an element of the array being filled. *)
Example sample_fill_own_element :
  array.fill 3 1%positive (Ptr 1%positive 1) sample
  = Normal tt (Machine (<[1%positive := [2; 2; 2]]> sample_objects) []).
Proof. vm_compute. reflexivity. Qed.

Example sample_swap :
  array.swap 3 1%positive 2%positive sample
  = Normal tt (Machine (<[1%positive := [4; 5; 6]]>
                          (<[2%positive := [1; 2; 3]]> sample_objects)) []).
Proof. vm_compute. reflexivity. Qed.

(** [a.swap(a)] swaps every element with itself. *)
Example sample_swap_self :
  array.swap 3 1%positive 1%positive sample = Normal tt sample.
Proof. vm_compute. reflexivity. Qed.

Example sample_forward :
  forward_traversal 3 3 1%positive sample = Normal [1; 2; 3] sample.
Proof. vm_compute. reflexivity. Qed.

Example sample_reverse :
  reverse_traversal 3 3 1%positive sample = Normal [3; 2; 1] sample.
Proof. vm_compute. reflexivity. Qed.

Example sample_forward_short_of_fuel :
  forward_traversal 3 2 1%positive sample = OutOfFuel.
Proof. vm_compute. reflexivity. Qed.

Example sample_subscript_out_of_bounds :
  array.operator_subscript 1%positive 3 sample = Undefined.
Proof. vm_compute. reflexivity. Qed.

Example sample_front_of_empty :
  array.front 3%positive sample = Undefined
  ∧ array.back 0 3%positive sample = Undefined
  ∧ array.back_const 0 3%positive sample = Undefined.
Proof. repeat split; vm_compute; reflexivity. Qed.

Lemma at_and_subscript_same_element_witness :
  is_array 3 sample 1%positive [1; 2; 3]
  ∧ 0 <= 1 < 3
  ∧ array.at_ 3 1%positive 1 sample = Normal (Ptr 1%positive 1) sample
  ∧ array.operator_subscript 1%positive 1 sample = Normal (Ptr 1%positive 1) sample
  ∧ ∃ m', write_at 3 1%positive 1 9 sample = Normal tt m'
          ∧ write_subscript 1%positive 1 9 sample = Normal tt m'
          ∧ read_at 3 1%positive 1 m' = Normal 9 m'
          ∧ read_subscript 1%positive 1 m' = Normal 9 m'.
Proof.
  assert (Ha : is_array 3 sample 1%positive [1; 2; 3]) by (split; reflexivity).
  assert (Hr : 0 <= 1 < 3) by lia.
  destruct (at_and_subscript_same_element 3 sample 1%positive [1; 2; 3] 1 Ha Hr)
    as (Hat & Hsub & _ & _ & Hw).
  destruct (Hw 9) as (m' & H1 & H2 & H3 & H4 & _).
  exact (conj Ha (conj Hr (conj Hat (conj Hsub
    (ex_intro _ m' (conj H1 (conj H2 (conj H3 H4)))))))).
Defined.

Lemma at_failure_preserves_elements_witness :
  is_array 3 sample 1%positive [1; 2; 3]
  ∧ 3 <= 5
  ∧ ∃ e m', array.at_ 3 1%positive 5 sample = Throws e m'
            ∧ array.at_const 3 1%positive 5 sample = Throws e m'
            ∧ objects m' = objects sample
            ∧ is_array 3 m' 1%positive [1; 2; 3].
Proof.
  assert (Ha : is_array 3 sample 1%positive [1; 2; 3]) by (split; reflexivity).
  assert (Hr : 3 <= 5) by lia.
  exact (conj Ha (conj Hr
           (at_failure_preserves_elements 3 sample 1%positive [1; 2; 3] 5 Ha Hr))).
Defined.

Lemma front_back_first_last_witness :
  is_array 3 sample 1%positive [1; 2; 3]
  ∧ 0 < 3 < size_type_modulus
  ∧ array.front 1%positive sample = Normal (Ptr 1%positive 0) sample
  ∧ array.back 3 1%positive sample = Normal (Ptr 1%positive (3 - 1)) sample.
Proof.
  assert (Ha : is_array 3 sample 1%positive [1; 2; 3]) by (split; reflexivity).
  assert (Hr : 0 < 3 < size_type_modulus) by (unfold size_type_modulus; lia).
  destruct (front_back_first_last 3 sample 1%positive [1; 2; 3] Ha Hr)
    as (Hf & _ & Hb & _).
  exact (conj Ha (conj Hr (conj Hf Hb))).
Defined.

Lemma back_overloads_agree_witness :
  is_array 3 sample 1%positive [1; 2; 3]
  ∧ 0 < 3 < size_type_modulus
  ∧ array.back 3 1%positive sample = array.back_const 3 1%positive sample.
Proof.
  assert (Ha : is_array 3 sample 1%positive [1; 2; 3]) by (split; reflexivity).
  assert (Hr : 0 < 3 < size_type_modulus) by (unfold size_type_modulus; lia).
  exact (conj Ha (conj Hr
           (proj1 (back_overloads_agree 3 sample 1%positive [1; 2; 3] Ha Hr)))).
Defined.

Lemma traversals_visit_all_in_order_witness :
  is_array 3 sample 1%positive [1; 2; 3]
  ∧ forward_traversal 3 (length [1; 2; 3] + 0) 1%positive sample
    = Normal [1; 2; 3] sample
  ∧ reverse_traversal 3 (length [1; 2; 3] + 0) 1%positive sample
    = Normal (reverse [1; 2; 3]) sample.
Proof.
  assert (Ha : is_array 3 sample 1%positive [1; 2; 3]) by (split; reflexivity).
  destruct (traversals_visit_all_in_order 3 sample 1%positive [1; 2; 3] 0%nat Ha)
    as (Hf & _ & Hr & _).
  exact (conj Ha (conj Hf Hr)).
Defined.

Lemma fill_overwrites_every_element_witness :
  is_array 3 sample 1%positive [1; 2; 3]
  ∧ load (Ptr 1%positive 1) sample = Normal 2 sample
  ∧ ∃ m', array.fill 3 1%positive (Ptr 1%positive 1) sample = Normal tt m'
          ∧ is_array 3 m' 1%positive (replicate (Z.to_nat 3) 2).
Proof.
  assert (Ha : is_array 3 sample 1%positive [1; 2; 3]) by (split; reflexivity).
  assert (Hu : load (Ptr 1%positive 1) sample = Normal 2 sample) by reflexivity.
  destruct (fill_overwrites_every_element 3 sample 1%positive [1; 2; 3]
              (Ptr 1%positive 1) 2 Ha Hu) as (m' & Hfill & Ha' & _).
  exact (conj Ha (conj Hu (ex_intro _ m' (conj Hfill Ha')))).
Defined.

Lemma swap_exchanges_elements_witness :
  is_array 3 sample 1%positive [1; 2; 3]
  ∧ is_array 3 sample 2%positive [4; 5; 6]
  ∧ ∃ m', array.swap 3 1%positive 2%positive sample = Normal tt m'
          ∧ is_array 3 m' 1%positive [4; 5; 6]
          ∧ is_array 3 m' 2%positive [1; 2; 3].
Proof.
  assert (Ha : is_array 3 sample 1%positive [1; 2; 3]) by (split; reflexivity).
  assert (Hb : is_array 3 sample 2%positive [4; 5; 6]) by (split; reflexivity).
  destruct (swap_exchanges_elements 3 sample 1%positive 2%positive
              [1; 2; 3] [4; 5; 6] Ha Hb) as (m' & Hswap & Ha' & Hb' & _).
  exact (conj Ha (conj Hb (ex_intro _ m' (conj Hswap (conj Ha' Hb'))))).
Defined.

(** ** Further properties of the container *)

Section more_array_facts.
Context {T : Type}.
Implicit Types (m : machine T) (vs ws : list T) (a b : block).

(** X1: Unchecked access past the end is undefined behaviour, where the
    checked access of the same position ends in a throw. *)
Theorem unchecked_access_out_of_bounds N m a vs pos :
  is_array N m a vs → N <= pos →
  array.operator_subscript a pos m = Undefined
  ∧ array.operator_subscript_const a pos m = Undefined
  ∧ ∃ e m', array.at_ N a pos m = Throws e m'.
Proof.
  intros Ha Hr. split_and!.
  - by apply (subscript_out_of_bounds N m a vs).
  - by apply (subscript_out_of_bounds N m a vs).
  - eexists _, _. by apply at_out_of_range.
Qed.

(** X2: On an [array<T, 0>] neither [front()] nor [back()] is defined: the
    [N == 0] branch of [back()] hands over to [front()], which subscripts
    an array without elements. *)
Theorem front_back_of_empty_undefined m a vs :
  is_array 0 m a vs →
  array.front a m = Undefined
  ∧ array.front_const a m = Undefined
  ∧ array.back 0 a m = Undefined
  ∧ array.back_const 0 a m = Undefined.
Proof.
  intros Ha.
  pose proof (subscript_out_of_bounds 0 m a vs 0 Ha ltac:(lia)) as Hsub.
  by split_and!.
Qed.

(** X3: A write through [at(pos)] changes the element at [pos] and nothing
    else: the other elements of the array, the other objects and the free
    store are as before. *)
Theorem write_at_changes_one_element N m a vs pos v :
  is_array N m a vs → 0 <= pos < N →
  ∃ m',
    write_at N a pos v m = Normal tt m'
    ∧ is_array N m' a (<[Z.to_nat pos := v]> vs)
    ∧ (∀ q x, 0 <= q < N → q ≠ pos →
         read_at N a q m = Normal x m → read_at N a q m' = Normal x m')
    ∧ (∀ b, b ≠ a → objects m' !! b = objects m !! b)
    ∧ free_store m' = free_store m.
Proof.
  intros Ha Hr.
  pose proof (is_array_store N m a vs (Z.to_nat pos) v Ha) as Ha'.
  set (m' := Machine _ _) in Ha'. exists m'. split_and!.
  - unfold write_at. run (at_in_range N m a vs pos Ha Hr).
    by apply (store_is_array N m a vs).
  - done.
  - intros q x Hq Hne. unfold read_at.
    run (at_in_range N m a vs q Ha Hq). run (at_in_range N m' a _ q Ha' Hq).
    unfold load. destruct (Z.leb_spec 0 q); last lia.
    rewrite (proj1 Ha), (proj1 Ha'). simpl.
    rewrite list_lookup_insert_ne by lia.
    destruct (vs !! Z.to_nat q); last done. by intros [= ->].
  - intros b Hb. subst m'. simpl. by rewrite lookup_insert_ne.
  - done.
Qed.

(** [fill] gives the machine in which the filled array holds [N] copies
    of the value and every other object is untouched. *)
Lemma fill_exact N m a vs (u : reference) (v : T) :
  is_array N m a vs → load u m = Normal v m →
  array.fill N a u m
  = Normal tt (Machine (<[a := replicate (Z.to_nat N) v]> (objects m)) (free_store m)).
Proof.
  intros Ha Hu. pose proof (is_array_nonneg _ _ _ _ Ha).
  unfold array.fill, std.fill_n.
  by run (fill_n_loop_is_array N a u v (Z.to_nat N) 0 m vs Ha
            ltac:(lia) ltac:(lia) Hu).
Qed.

(** X4: [fill] touches the filled instance only, and filling again with the
    value just written changes nothing more. *)
Theorem fill_changes_only_its_array N m a vs (u : reference) (v : T) :
  is_array N m a vs → load u m = Normal v m →
  ∃ m',
    array.fill N a u m = Normal tt m'
    ∧ (∀ b, b ≠ a → objects m' !! b = objects m !! b)
    ∧ free_store m' = free_store m
    ∧ (array.fill N a u;; array.fill N a u) m = Normal tt m'.
Proof.
  intros Ha Hu.
  pose proof (fill_exact N m a vs u v Ha Hu) as Hfill.
  set (m' := Machine _ _) in Hfill. exists m'.
  assert (Ha' : is_array N m' a (replicate (Z.to_nat N) v)).
  { pose proof (is_array_nonneg _ _ _ _ Ha).
    split; simpl; first by rewrite lookup_insert_eq.
    rewrite length_replicate. lia. }
  assert (Hu' : load u m' = Normal v m').
  { destruct u as [|bu ou]; first done. revert Hu. unfold load.
    destruct (Z.leb_spec 0 ou); last done.
    destruct (decide (bu = a)) as [->|Hne].
    - rewrite (proj1 Ha), (proj1 Ha'). simpl.
      destruct (vs !! Z.to_nat ou) eqn:Hv; last done. intros [= ->].
      apply lookup_lt_Some in Hv. rewrite (is_array_length _ _ _ _ Ha) in Hv.
      by rewrite lookup_replicate_2 by done.
    - subst m'. simpl. rewrite lookup_insert_ne by done.
      destruct (objects m !! bu ≫= _); last done. by intros [= ->]. }
  split_and!.
  - done.
  - intros b Hb. subst m'. simpl. by rewrite lookup_insert_ne.
  - done.
  - run Hfill. rewrite (fill_exact N m' a _ u v Ha' Hu').
    subst m'. simpl. by rewrite insert_insert_eq.
Qed.

(** [swap] on two distinct live arrays gives the machine in which the two
    contents are exchanged. *)
Lemma swap_exact N m a b va vb :
  is_array N m a va → is_array N m b vb → a ≠ b →
  array.swap N a b m
  = Normal tt (Machine (<[b := va]> (<[a := vb]> (objects m))) (free_store m)).
Proof. apply swap_distinct_arrays. Qed.

Lemma is_array_swapped N m a b va vb :
  is_array N m a va → is_array N m b vb → a ≠ b →
  is_array N (Machine (<[b := va]> (<[a := vb]> (objects m))) (free_store m)) a vb
  ∧ is_array N (Machine (<[b := va]> (<[a := vb]> (objects m))) (free_store m)) b va.
Proof.
  intros Ha Hb Hne. split; split; simpl; try apply Ha; try apply Hb.
  - by rewrite lookup_insert_ne, lookup_insert_eq.
  - by rewrite lookup_insert_eq.
Qed.

(** X5: Swapping twice restores the machine: [swap] is its own inverse. *)
Theorem swap_twice_restores N m a b va vb :
  is_array N m a va → is_array N m b vb → a ≠ b →
  swap_twice N a b m = Normal tt m.
Proof.
  intros Ha Hb Hne. unfold swap_twice.
  run (swap_exact N m a b va vb Ha Hb Hne).
  destruct (is_array_swapped N m a b va vb Ha Hb Hne) as [Ha' Hb'].
  rewrite (swap_exact N _ a b vb va Ha' Hb' Hne). simpl. f_equal.
  rewrite <- (machine_eta m) at 3. f_equal.
  apply map_eq. intros k.
  destruct (decide (k = b)) as [->|Hkb].
  - rewrite lookup_insert_eq. symmetry. apply Hb.
  - rewrite lookup_insert_ne by done.
    destruct (decide (k = a)) as [->|Hka].
    + rewrite lookup_insert_eq. symmetry. apply Ha.
    + by rewrite !lookup_insert_ne by done.
Qed.

(** X6: [a.swap(b)] and [b.swap(a)] have the same effect, and neither touches
    a third object or the free store. *)
Theorem swap_symmetric_and_local N m a b va vb :
  is_array N m a va → is_array N m b vb → a ≠ b →
  ∃ m',
    array.swap N a b m = Normal tt m'
    ∧ array.swap N b a m = Normal tt m'
    ∧ (∀ c, c ≠ a → c ≠ b → objects m' !! c = objects m !! c)
    ∧ free_store m' = free_store m.
Proof.
  intros Ha Hb Hne. eexists. split_and!.
  - by apply (swap_exact N m a b va vb).
  - rewrite (swap_exact N m b a vb va Hb Ha ltac:(done)).
    do 2 f_equal. by apply insert_insert_ne.
  - intros c Hca Hcb. simpl. by rewrite !lookup_insert_ne.
  - done.
Qed.

End more_array_facts.

(** ** Iterators, raw data and the elements *)

Section more_iterator_facts.
Context {T : Type}.
Implicit Types (m : machine T) (vs ws : list T) (a b : block).

Lemma array_iterator_advance_is_array N m a vs ofs n :
  is_array N m a vs → 0 <= ofs + n <= N →
  array_iterator_advance (ArrayIterator (Ptr a ofs)) n m
  = Normal (ArrayIterator (Ptr a (ofs + n))) m.
Proof.
  intros Ha Hr. unfold array_iterator_advance. simpl.
  by run (ptr_add_is_array N m a vs ofs n Ha Hr).
Qed.

Lemma array_iterator_decr_is_array N m a vs ofs :
  is_array N m a vs → 0 < ofs <= N →
  array_iterator_decr (ArrayIterator (Ptr a ofs)) m
  = Normal (ArrayIterator (Ptr a (ofs - 1))) m.
Proof.
  intros Ha Hr. unfold array_iterator_decr.
  by rewrite (array_iterator_advance_is_array N m a vs ofs (-1) Ha ltac:(lia)).
Qed.

(** X7: For [N > 0], [data()] is the position of the first element: it is
    the reference [front()] returns, and subscripting it reaches the
    element [operator[]] reaches. *)
Theorem data_addresses_the_elements N m a vs i :
  is_array N m a vs → 0 <= i < N →
  array.data N a m = Normal (Ptr a 0) m
  ∧ array.data_const N a m = Normal (Ptr a 0) m
  ∧ array.front a m = Normal (Ptr a 0) m
  ∧ data_subscript N a i m = array.operator_subscript a i m
  ∧ data_subscript N a i m = Normal (Ptr a i) m.
Proof.
  intros Ha Hi.
  assert (Hd : array.data (T:=T) N a m = Normal (Ptr a 0) m).
  { unfold array.data. by destruct (Z.eqb_spec N 0); first lia. }
  pose proof (subscript_is_array N m a vs i Ha Hi) as Hsub.
  assert (Hds : data_subscript N a i m = Normal (Ptr a i) m).
  { unfold data_subscript. by run Hd. }
  split_and!.
  - done.
  - unfold array.data_const. by destruct (Z.eqb_spec N 0); first lia.
  - apply (subscript_is_array N m a vs); [done|lia].
  - by rewrite Hds.
  - done.
Qed.

(** X8: [begin() == end()] holds exactly on the empty array: the comparison
    gives what [empty()] gives. *)
Theorem begin_equals_end_iff_empty N m a vs :
  is_array N m a vs →
  begin_equals_end N a m = array.empty N a m
  ∧ begin_equals_end N a m = Normal (bool_decide (vs = [])) m.
Proof.
  intros Ha.
  assert (Hbe : begin_equals_end N a m = Normal (N =? 0) m).
  { unfold begin_equals_end.
    run (begin_is_array N m a vs Ha). run (end_is_array N m a vs Ha).
    unfold mret, M_ret. f_equal. destruct (Z.eqb_spec N 0) as [->|Hne]; first done.
    rewrite array_iterator_eqb_Ptr. by apply bool_decide_eq_false_2. }
  split; first done. rewrite Hbe. f_equal.
  destruct Ha as [_ <-]. destruct vs as [|x vs'].
  - by rewrite bool_decide_eq_true_2.
  - rewrite bool_decide_eq_false_2 by done. apply Z.eqb_neq. simpl. lia.
Qed.

(** X9: For [N > 0], [*begin()] is the element [front()] returns and
    [*rbegin()] the element [back()] returns. *)
Theorem begin_rbegin_reach_front_back N m a vs :
  is_array N m a vs → 0 < N < size_type_modulus →
  deref_begin N a m = array.front a m
  ∧ deref_begin N a m = Normal (Ptr a 0) m
  ∧ deref_rbegin N a m = array.back N a m
  ∧ deref_rbegin N a m = Normal (Ptr a (N - 1)) m.
Proof.
  intros Ha Hr.
  assert (HN : (N =? 0) = false) by (apply Z.eqb_neq; lia).
  assert (Hfront : array.front a m = Normal (Ptr a 0) m).
  { apply (subscript_is_array N m a vs); [done|lia]. }
  assert (Hback : array.back N a m = Normal (Ptr a (N - 1)) m).
  { unfold array.back, array.empty. rewrite bind_ret, HN.
    unfold size_type_sub. rewrite Z.mod_small by lia.
    apply (subscript_is_array N m a vs); [done|lia]. }
  assert (Hb : deref_begin N a m = Normal (Ptr a 0) m).
  { unfold deref_begin. run (begin_is_array N m a vs Ha). rewrite HN.
    apply (indirection_is_array N m a vs); [done|lia]. }
  assert (Hrb : deref_rbegin N a m = Normal (Ptr a (N - 1)) m).
  { unfold deref_rbegin. run (rbegin_is_array N m a vs Ha). rewrite HN.
    unfold reverse_iterator_deref. simpl current.
    run (array_iterator_decr_is_array N m a vs N Ha ltac:(lia)).
    apply (indirection_is_array N m a vs); [done|lia]. }
  split_and!; congruence.
Qed.

(** X10: Dereferencing [end()] or [rend()] is undefined for every [N]: the
    position is past the last element, before the first one, or null. *)
Theorem end_rend_not_dereferenceable N m a vs :
  is_array N m a vs →
  deref_end N a m = Undefined ∧ deref_rend N a m = Undefined.
Proof.
  intros Ha. split.
  - unfold deref_end. run (end_is_array N m a vs Ha).
    destruct (N =? 0); first done.
    apply (indirection_past_end N m a vs); [done|lia].
  - unfold deref_rend. run (rend_is_array N m a vs Ha).
    destruct (N =? 0); first done.
    unfold reverse_iterator_deref, array_iterator_decr, array_iterator_advance,
      mbind, M_bind, ptr_add. simpl.
    by rewrite (extent_is_array _ _ _ _ Ha).
Qed.

(** X11: A value written through the iterator [begin() + i] is the value
    [operator[](i)] reads, and the write is the one [a[i] = v] performs. *)
Theorem write_iterator_read_subscript N m a vs i v :
  is_array N m a vs → 0 <= i < N →
  ∃ m',
    write_iterator N a i v m = Normal tt m'
    ∧ write_subscript a i v m = Normal tt m'
    ∧ read_subscript a i m' = Normal v m'.
Proof.
  intros Ha Hi.
  assert (HN : (N =? 0) = false) by (apply Z.eqb_neq; lia).
  pose proof (is_array_store N m a vs (Z.to_nat i) v Ha) as Ha'.
  set (m' := Machine _ _) in Ha'. exists m'.
  pose proof (store_is_array N m a vs i v Ha Hi) as Hst. fold m' in Hst.
  split_and!.
  - unfold write_iterator. run (begin_is_array N m a vs Ha). rewrite HN.
    run (array_iterator_advance_is_array N m a vs 0 i Ha ltac:(lia)).
    rewrite Z.add_0_l. unfold array_iterator_deref. simpl it_ptr.
    by run (indirection_is_array N m a vs i Ha Hi).
  - unfold write_subscript. by run (operator_subscript_in_range N m a vs i Ha Hi).
  - unfold read_subscript. run (operator_subscript_in_range N m' a _ i Ha' Hi).
    apply (load_is_array N m' a (<[Z.to_nat i := v]> vs)); [done|lia|].
    apply list_lookup_insert_eq. rewrite (is_array_length _ _ _ _ Ha). lia.
Qed.

(** X12: [swap] exchanges elements, not storage: an iterator into [a] taken
    before [a.swap(b)] still points into [a] afterwards, where it finds
    the element [b] held at that index. *)
Theorem iterator_follows_elements_of_swap N m a b va vb i y :
  is_array N m a va → is_array N m b vb → a ≠ b → 0 <= i < N →
  vb !! Z.to_nat i = Some y →
  iterator_across_swap N a b i m
  = Normal y (Machine (<[b := va]> (<[a := vb]> (objects m))) (free_store m)).
Proof.
  intros Ha Hb Hne Hi Hy.
  assert (HN : (N =? 0) = false) by (apply Z.eqb_neq; lia).
  destruct (is_array_swapped N m a b va vb Ha Hb Hne) as [Ha' Hb'].
  unfold iterator_across_swap. run (begin_is_array N m a va Ha). rewrite HN.
  run (array_iterator_advance_is_array N m a va 0 i Ha ltac:(lia)).
  rewrite Z.add_0_l. unfold array_iterator_deref. simpl it_ptr.
  run (swap_exact N m a b va vb Ha Hb Hne).
  run (indirection_is_array N _ a vb i Ha' Hi).
  apply (load_is_array N _ a vb); [done|lia|done].
Qed.

(** X13: After [fill], the traversal from [begin()] to [end()] yields [N]
    copies of the value. *)
Theorem fill_then_traverse_replicates N m a vs (u : reference) (v : T) (k : nat) :
  is_array N m a vs → load u m = Normal v m →
  fill_then_traverse N (Z.to_nat N + k) a u m
  = Normal (replicate (Z.to_nat N) v)
      (Machine (<[a := replicate (Z.to_nat N) v]> (objects m)) (free_store m)).
Proof.
  intros Ha Hu. unfold fill_then_traverse.
  run (fill_exact N m a vs u v Ha Hu).
  set (m' := Machine _ _).
  assert (Ha' : is_array N m' a (replicate (Z.to_nat N) v)).
  { pose proof (is_array_nonneg _ _ _ _ Ha).
    split; simpl; first by rewrite lookup_insert_eq.
    rewrite length_replicate. lia. }
  pose proof (forward_traversal_is_array N m' a _ k Ha') as Htr.
  by rewrite length_replicate in Htr.
Qed.

(** X14: Every failing [at] leaves one more object on the free store: the
    thrown pointer is a fresh address, it designates an [out_of_range]
    object with the message of the source, and nothing in the call
    releases it or changes the objects allocated earlier. *)
Theorem at_failure_allocates N m a pos :
  N <= pos →
  ∃ p m',
    array.at_ N a pos m = Throws (thrown_pointer p) m'
    ∧ free_store m !! p = None
    ∧ free_store m' !! p = Some (out_of_range "array index out of range")
    ∧ length (free_store m') = S (length (free_store m))
    ∧ (∀ q e, free_store m !! q = Some e → free_store m' !! q = Some e).
Proof.
  intros Hr. eexists _, _. split_and!.
  - by apply at_out_of_range.
  - by apply lookup_ge_None_2.
  - simpl. by rewrite lookup_app_r, Nat.sub_diag.
  - simpl. rewrite length_app. simpl. lia.
  - intros q e Hq. simpl. by apply lookup_app_l_Some.
Qed.

End more_iterator_facts.

(** ** The driver's argument loop *)

Section driver_arguments.
Import driver.
Implicit Types (o : options) (trace : list event) (st : options * list event).
Implicit Types (arguments rest : list string) (flag value exe : string).

Lemma loop_body_recognised_None flag st :
  recognised flag = true → loop_body flag None st = UndefinedBehaviour.
Proof.
  destruct st as [o trace]. unfold recognised, loop_body, is_file_flag.
  repeat (destruct (String.eqb flag _); simpl; try done).
Qed.

Lemma loop_body_unrecognised flag next st :
  recognised flag = false → loop_body flag next st = Done st.
Proof.
  destruct st as [o trace]. unfold recognised, loop_body, is_file_flag.
  repeat (destruct (String.eqb flag _); simpl; try done).
Qed.

(** With a value to read, the body of the loop always completes. *)
Lemma loop_body_Some flag value st :
  ∃ st', loop_body flag (Some value) st = Done st'.
Proof.
  destruct st as [o trace]. unfold loop_body.
  repeat (destruct (String.eqb flag _); first by eexists).
  destruct (is_file_flag flag); by eexists.
Qed.

Lemma parse_loop_pairs fuel :
  ∀ arguments i st,
    (length (drop i arguments) ≤ fuel)%nat →
    parse_loop fuel arguments i st = parse_pairs (drop i arguments) st.
Proof.
  induction fuel as [|fuel IH]; intros arguments i st Hfuel.
  - assert (Hi : arguments !! i = None).
    { rewrite <- (Nat.add_0_r i), <- lookup_drop.
      by destruct (drop i arguments); [|simpl in Hfuel; lia]. }
    simpl. rewrite Hi. by destruct (drop i arguments); [|simpl in Hfuel; lia].
  - simpl parse_loop.
    rewrite <- (Nat.add_0_r i) at 1. rewrite <- !lookup_drop.
    pose proof (IH arguments (i + 2)%nat) as IH'.
    rewrite <- (drop_drop arguments 2 i) in IH'.
    destruct (drop i arguments) as [|flag [|value rest]]; simpl in *.
    + done.
    + destruct (loop_body flag None st); [|done..]. apply IH'. lia.
    + destruct (loop_body flag (Some value) st); [|done..]. apply IH'.
      rewrite drop_0. lia.
Qed.

Lemma parse_loop_program_name exe rest st :
  parse_loop (length (exe :: rest)) (exe :: rest) 1 st = parse_pairs rest st.
Proof.
  rewrite parse_loop_pairs; simpl; [by rewrite drop_0 | rewrite drop_0; lia].
Qed.

(** X15: The index loop of [processCmdLine] never runs short of steps and
    reads the arguments that follow the program name two by two: a flag
    and the argument after it. *)
Theorem argument_loop_reads_pairs exe rest st :
  parse_loop (length (exe :: rest)) (exe :: rest) 1 st = parse_pairs rest st
  ∧ parse_loop (length (exe :: rest)) (exe :: rest) 1 st ≠ NoFuel.
Proof.
  pose proof (parse_loop_program_name exe rest st) as Heq.
  split; first done. rewrite Heq. clear Heq.
  revert st. induction rest as [rest IH] using (induction_ltof1 _ length).
  unfold ltof in IH. intros st.
  destruct rest as [|flag [|value rest]]; cbn [parse_pairs].
  - done.
  - destruct (decide (recognised flag = true)) as [Hr|Hr].
    + by rewrite loop_body_recognised_None.
    + by rewrite loop_body_unrecognised by by destruct (recognised flag).
  - destruct (loop_body_Some flag value st) as [st' ->].
    apply IH. simpl. lia.
Qed.

Lemma processCmdLine_pairs env fuel exe rest :
  processCmdLine env fuel (exe :: rest)
  = match parse_pairs rest (initial_options, []) with
    | Done st => after_parse env fuel (exe :: rest) st
    | UndefinedBehaviour => UndefinedBehaviour
    | NoFuel => NoFuel
    end.
Proof.
  unfold processCmdLine. by rewrite parse_loop_program_name.
Qed.

(** What comes after the loop looks at [arguments[0]] only. *)
Lemma after_parse_program_name env fuel exe rest rest' st :
  after_parse env fuel (exe :: rest) st = after_parse env fuel (exe :: rest') st.
Proof. by destruct st. Qed.

Lemma parse_pairs_after_pairs (pairs : list (string * string)) :
  ∀ st, ∃ st', ∀ rest,
    parse_pairs (flat_map (λ p, [p.1; p.2]) pairs ++ rest) st = parse_pairs rest st'.
Proof.
  induction pairs as [|[f v] pairs IH]; intros st.
  - by exists st.
  - destruct (loop_body_Some f v st) as [st1 Hst1].
    destruct (IH st1) as [st' Hst']. exists st'. intros rest.
    cbn [flat_map app fst snd parse_pairs]. rewrite Hst1. apply Hst'.
Qed.

(** X16: An argument in flag position that is not one of the flags is passed
    over together with the argument after it, whatever that one is and
    whatever flag/value pairs come before: the run is the run without the
    two. *)
Theorem unrecognised_flag_hides_next_argument env fuel exe
    (pairs : list (string * string)) x y rest :
  recognised x = false →
  processCmdLine env fuel
    (exe :: flat_map (λ p, [p.1; p.2]) pairs ++ x :: y :: rest)
  = processCmdLine env fuel (exe :: flat_map (λ p, [p.1; p.2]) pairs ++ rest).
Proof.
  intros Hx. rewrite !processCmdLine_pairs.
  destruct (parse_pairs_after_pairs pairs (initial_options, [])) as [st' Hst'].
  rewrite !Hst'.
  cbn [parse_pairs]. rewrite (loop_body_unrecognised x (Some y) _ Hx).
  destruct (parse_pairs rest _); [|done..].
  apply after_parse_program_name.
Qed.

(** The flag/value pairs laid out as arguments. *)
Lemma parse_pairs_app_pairs (pairs : list (string * string)) rest st :
  ∃ st', parse_pairs (flat_map (λ p, [p.1; p.2]) pairs ++ rest) st
         = parse_pairs rest st'.
Proof.
  revert st. induction pairs as [|[f v] pairs IH]; intros st.
  - by exists st.
  - cbn [flat_map app fst snd parse_pairs].
    destruct (loop_body_Some f v st) as [st' ->]. apply IH.
Qed.

(** X17: A recognised flag as the last argument, with no value after it, makes
    the loop read [arguments[i + 1]] past the end of the vector: the run is
    undefined, whatever flag/value pairs come before. *)
Theorem trailing_flag_reads_past_the_end env fuel exe
    (pairs : list (string * string)) flag :
  recognised flag = true →
  processCmdLine env fuel (exe :: flat_map (λ p, [p.1; p.2]) pairs ++ [flag])
  = UndefinedBehaviour.
Proof.
  intros Hflag. rewrite processCmdLine_pairs.
  destruct (parse_pairs_app_pairs pairs [flag] (initial_options, [])) as [st' ->].
  cbn [parse_pairs]. by rewrite loop_body_recognised_None.
Qed.

End driver_arguments.

(** ** The [$exe] macro of the driver *)

Section driver_macro.
Import driver.
#[local] Arguments String.append !_ _ / : simpl nomatch.
Implicit Types (s text needle stem pre post : string).

Lemma string_app_assoc (a b c : string) : (a +:+ b) +:+ c = a +:+ b +:+ c.
Proof. induction a as [|x a IH]; simpl; congruence. Qed.

Lemma string_app_nil_r s : s +:+ EmptyString = s.
Proof. induction s as [|x s IH]; simpl; congruence. Qed.

Lemma find_unfold needle s :
  find needle s
  = if String.prefix needle s then Some 0%nat
    else match s with
         | EmptyString => None
         | String _ s' => S <$> find needle s'
         end.
Proof. by destruct s. Qed.

Lemma prefix_app needle post : String.prefix needle (needle +:+ post) = true.
Proof.
  induction needle as [|c needle IH]; simpl.
  - by destruct post.
  - by destruct (Ascii.ascii_dec c c).
Qed.

Lemma prefix_split needle : ∀ s,
  String.prefix needle s = true →
  s = needle +:+ string_drop (String.length needle) s.
Proof.
  induction needle as [|c needle IH]; intros s Hp.
  - by destruct s.
  - destruct s as [|b s]; first done. simpl in Hp.
    destruct (Ascii.ascii_dec c b) as [->|]; last done.
    simpl. f_equal. by apply IH.
Qed.

(** [find] finds an occurrence wherever there is one. *)
Lemma find_occurs needle pre post :
  ∃ p, find needle (pre +:+ needle +:+ post) = Some p.
Proof.
  induction pre as [|c pre [p IH]]; rewrite find_unfold.
  - simpl. rewrite prefix_app. by eexists.
  - destruct (String.prefix needle _); first by eexists.
    simpl. rewrite IH. by eexists.
Qed.

(** The position [find] returns is the start of an occurrence. *)
Lemma find_Some_split needle : ∀ s p,
  find needle s = Some p →
  s = string_take p s +:+ needle +:+ string_drop (p + String.length needle) s.
Proof.
  induction s as [|c s IH]; intros p; rewrite find_unfold.
  - destruct (String.prefix needle EmptyString) eqn:Hp; last done.
    intros [= <-]. by apply prefix_split.
  - destruct (String.prefix needle (String c s)) eqn:Hp.
    + intros [= <-]. by apply prefix_split.
    + destruct (find needle s) as [p'|] eqn:Hf; last done.
      intros [= <-]. simpl. f_equal. by apply IH.
Qed.

Lemma dollars_app (a b : string) : dollars (a +:+ b) = (dollars a + dollars b)%nat.
Proof. induction a as [|c a IH]; simpl; [done|]. rewrite IH. lia. Qed.

(** A string without [$] holds no [$exe]. *)
Lemma find_exe_no_dollars s : dollars s = 0%nat → find "$exe" s = None.
Proof.
  intros Hs. destruct (find "$exe" s) as [p|] eqn:Hf; last done.
  apply find_Some_split in Hf. rewrite Hf in Hs.
  rewrite !dollars_app in Hs. simpl in Hs. lia.
Qed.

(** One replacement takes the [$] of the occurrence away and brings in
    those of the replacement text. *)
Lemma dollars_replace text stem p :
  find "$exe" text = Some p →
  S (dollars (replace p 4 stem text)) = (dollars text + dollars stem)%nat.
Proof.
  intros Hf. apply find_Some_split in Hf. rewrite Hf at 2.
  unfold replace. rewrite !dollars_app. simpl. lia.
Qed.

Lemma expand_Done fuel : ∀ text stem r,
  expand fuel text stem = Done r → find "$exe" r = None.
Proof.
  induction fuel as [|fuel IH]; intros text stem r; simpl;
    destruct (find "$exe" text) eqn:Hf; try done.
  - by intros [= <-].
  - apply IH.
  - by intros [= <-].
Qed.

(** X18: When the name put in for [$exe] has no [$] in it, the loop ends
    after at most as many replacements as the text has [$] characters, and
    the text it leaves holds no [$exe]. *)
Theorem expand_ends_without_dollars stem (k : nat) :
  dollars stem = 0%nat →
  ∀ text, ∃ r,
    expand (dollars text + k) text stem = Done r ∧ find "$exe" r = None.
Proof.
  intros Hstem text.
  remember (dollars text) as n eqn:Hn. revert text Hn.
  induction n as [|n IH]; intros text Hn.
  - exists text. pose proof (find_exe_no_dollars text (eq_sym Hn)) as Hf.
    split; last done. destruct k; simpl; by rewrite Hf.
  - simpl. destruct (find "$exe" text) as [p|] eqn:Hf.
    + apply IH. pose proof (dollars_replace text stem p Hf). lia.
    + by exists text.
Qed.

(** X19: When the name put in for [$exe] itself holds [$exe], the loop never
    ends on a text with an occurrence: every replacement brings a new one
    in.  With the default header this is every run whose program name
    holds [$exe]. *)
Theorem expand_never_ends_on_own_macro stem p0 :
  find "$exe" stem = Some p0 →
  (∀ fuel text p, find "$exe" text = Some p → expand fuel text stem = NoFuel)
  ∧ (∀ env fuel exe,
       filename_no_extension env exe = stem →
       processCmdLine env fuel [exe] = NoFuel).
Proof.
  intros Hstem.
  assert (Hloop : ∀ fuel text p,
            find "$exe" text = Some p → expand fuel text stem = NoFuel).
  { induction fuel as [|fuel IH]; intros text p Hf; simpl; rewrite Hf; first done.
    apply find_Some_split in Hstem as Hsplit.
    destruct (find_occurs "$exe"
                (string_take p text +:+ string_take p0 stem)
                (string_drop (p0 + String.length "$exe") stem
                 +:+ string_drop (p + 4) text)) as [p' Hp'].
    apply (IH _ p'). unfold replace. rewrite Hsplit at 1.
    by rewrite !string_app_assoc in *. }
  split; first done.
  intros env fuel exe Hexe. unfold processCmdLine. simpl.
  rewrite Hexe. by rewrite (Hloop fuel defaultHeaderText 8%nat).
Qed.

(** X20: With no options, a program name without [$] and one step of fuel or
    more, the driver announces the mode [none], the header [Running]
    followed by the program name, and the standard output, and then runs
    the tests: when they return the summary follows, when they throw a
    [std::string] the message and the summary follow, and when they throw
    anything else the exception leaves the driver. *)
Theorem default_run env (fuel : nat) exe :
  dollars (filename_no_extension env exe) = 0%nat →
  processCmdLine env (S fuel) [exe]
  = Done
      match tests env with
      | tests_return =>
          Returned
            [setPassReportMode none;
             setHeaderText ("Running " +:+ filename_no_extension env exe);
             setOutput_cout; runTests; summarizeTests]
      | tests_throw_string msg =>
          Returned
            [setPassReportMode none;
             setHeaderText ("Running " +:+ filename_no_extension env exe);
             setOutput_cout; runTests; cout (msg +:+ newline); summarizeTests]
      | tests_throw_other =>
          Escaped
            [setPassReportMode none;
             setHeaderText ("Running " +:+ filename_no_extension env exe);
             setOutput_cout; runTests]
      end.
Proof.
  intros Hstem. unfold processCmdLine. simpl. unfold defaultHeaderText. simpl.
  unfold replace. simpl. rewrite string_app_nil_r.
  assert (Hf : find "$exe" ("Running " +:+ filename_no_extension env exe) = None).
  { apply find_exe_no_dollars. by rewrite dollars_app. }
  simpl in Hf.
  assert (Hrun : ∀ h,
            open_output env initial_options "" [setPassReportMode none; setHeaderText h]
            = match tests env with
              | tests_return =>
                  Returned [setPassReportMode none; setHeaderText h;
                            setOutput_cout; runTests; summarizeTests]
              | tests_throw_string msg =>
                  Returned [setPassReportMode none; setHeaderText h;
                            setOutput_cout; runTests; cout (msg +:+ newline);
                            summarizeTests]
              | tests_throw_other =>
                  Escaped [setPassReportMode none; setHeaderText h;
                           setOutput_cout; runTests]
              end).
  { intros h. unfold open_output, run_tests. simpl. by destruct (tests env). }
  destruct fuel; simpl; rewrite Hf; f_equal; apply Hrun.
Qed.

End driver_macro.

(** ** The shape of a run of the driver *)

Section driver_runs.
Import driver.
Implicit Types (o : options) (trace pre : list event) (st : options * list event).
Implicit Types (arguments rest : list string) (env : environment).

Lemma loop_body_trace flag next o trace o' trace' :
  loop_body flag next (o, trace) = Done (o', trace') →
  ∃ more, trace' = trace ++ more ∧ Forall (λ e, setup_event e = true) more.
Proof.
  unfold loop_body.
  repeat (destruct (String.eqb flag _);
          first (destruct next; last done; intros [= <- <-];
                 first [ by exists []; rewrite app_nil_r
                       | by eexists; split; [done|repeat constructor] ])).
  destruct (is_file_flag flag).
  - destruct next; last done. intros [= <- <-]. exists []. by rewrite app_nil_r.
  - intros [= <- <-]. exists []. by rewrite app_nil_r.
Qed.

Lemma parse_pairs_trace : ∀ rest o trace o' trace',
  parse_pairs rest (o, trace) = Done (o', trace') →
  ∃ more, trace' = trace ++ more ∧ Forall (λ e, setup_event e = true) more.
Proof.
  induction rest as [rest IH] using (induction_ltof1 _ length).
  unfold ltof in IH. intros o trace o' trace'.
  destruct rest as [|flag [|value rest]]; cbn [parse_pairs].
  - intros [= <- <-]. exists []. by rewrite app_nil_r.
  - apply loop_body_trace.
  - destruct (loop_body flag (Some value) (o, trace)) as [[o1 trace1]| |] eqn:Hb;
      [|done..].
    intros Hrest.
    destruct (loop_body_trace _ _ _ _ _ _ Hb) as (more1 & -> & Hm1).
    destruct (IH rest ltac:(simpl; lia) _ _ _ _ Hrest) as (more2 & -> & Hm2).
    exists (more1 ++ more2). rewrite app_assoc. split; first done.
    by apply Forall_app.
Qed.

Lemma pass_report_events_setup o :
  Forall (λ e, setup_event e = true) (pass_report_events o).
Proof.
  unfold pass_report_events.
  repeat destruct (String.eqb _ _); by repeat constructor.
Qed.

(** From [setOutput] on: a diagnostic and nothing more, or the tests. *)
Lemma open_output_shape env o name pre :
  Forall (λ e, setup_event e = true) pre →
  ∃ pre', Forall (λ e, setup_event e = true) pre'
    ∧ (open_output env o name pre = Returned (pre' ++ [cerr "Output file alredy exists"])
       ∨ open_output env o name pre = Returned (pre' ++ [cerr "Error opening output file"])
       ∨ open_output env o name pre = run_tests env o pre').
Proof.
  intros Hpre. unfold open_output.
  destruct (String.eqb name "").
  { eexists. split; last by right; right.
    apply Forall_app. split; first done. by repeat constructor. }
  destruct (String.eqb (fileOpenMode o) "-f" && file_exists env _).
  { eexists. split; last by left.
    apply Forall_app. split; first done. by repeat constructor. }
  destruct (opens env _ _).
  - eexists. split; last by right; right.
    apply Forall_app. split; last by repeat constructor.
    apply Forall_app. split; first done. by repeat constructor.
  - eexists. split; last by right; left.
    apply Forall_app. split; last by repeat constructor.
    apply Forall_app. split; first done. by repeat constructor.
Qed.

(** Every run that ends consists of preparations followed by one of the
    two diagnostics, or by the tests. *)
Lemma processCmdLine_shape env fuel arguments e :
  processCmdLine env fuel arguments = Done e →
  ∃ o pre, Forall (λ e, setup_event e = true) pre
    ∧ (e = Returned (pre ++ [cerr "Output file alredy exists"])
       ∨ e = Returned (pre ++ [cerr "Error opening output file"])
       ∨ e = run_tests env o pre).
Proof.
  destruct arguments as [|exe rest].
  { unfold processCmdLine. simpl. done. }
  rewrite processCmdLine_pairs.
  destruct (parse_pairs rest (initial_options, [])) as [[o trace]| |] eqn:Hp;
    [|done..].
  destruct (parse_pairs_trace _ _ _ _ _ Hp) as (more & -> & Hmore).
  unfold after_parse. cbn [lookup list_lookup].
  destruct (if printHeader o && _ then _ else _) as [header| |]; [|done..].
  destruct (if negb _ then _ else _) as [name| |]; [|done..].
  intros [= <-]. exists o.
  destruct (open_output_shape env o name
              ((more ++ pass_report_events o) ++ [setHeaderText header]))
    as (pre' & Hpre' & Hcases).
  { repeat (apply Forall_app; split); try done.
    - apply pass_report_events_setup.
    - by repeat constructor. }
  by exists pre'.
Qed.

(** [x ∉ trace], for an event [x] that is no preparation and a trace made
    of preparations [Hsetup] and explicit events. *)
Ltac absent Hsetup :=
  lazymatch goal with
  | |- ?x ∉ _ =>
      let H := fresh in
      pose proof (Hsetup x) as H; simpl in H;
      rewrite ?elem_of_app, ?elem_of_cons, ?elem_of_nil;
      intuition congruence
  end.

(** X21: A run that prints one of the driver's diagnostics has not run the
    tests and prints neither a test message nor the summary. *)
Theorem diagnostic_means_tests_not_run env fuel arguments trace msg :
  processCmdLine env fuel arguments = Done (Returned trace) →
  cerr msg ∈ trace →
  (runTests ∉ trace) ∧ (summarizeTests ∉ trace) ∧ (∀ text, cout text ∉ trace).
Proof.
  intros Hrun Hcerr.
  destruct (processCmdLine_shape _ _ _ _ Hrun) as (o & pre & Hpre & Hcases).
  rewrite Forall_forall in Hpre.
  destruct Hcases as [[= ->]| [[= ->]| Hr]].
  - split_and!; [| |intros text]; absent Hpre.
  - split_and!; [| |intros text]; absent Hpre.
  - enough (cerr msg ∉ trace) by done. unfold run_tests in Hr.
    destruct (tests env), (printSummary o); try done; injection Hr as ->;
      absent Hpre.
Qed.

(** X22: When [runTests()] throws something that is not a [std::string], the
    exception leaves [processCmdLine]: the summary is never printed, and a
    run that got as far as the tests does not return. *)
Theorem foreign_exception_skips_summary env fuel arguments e :
  tests env = tests_throw_other →
  processCmdLine env fuel arguments = Done e →
  (summarizeTests ∉ trace_of e)
  ∧ (runTests ∈ trace_of e → ∃ pre, e = Escaped (pre ++ [runTests])).
Proof.
  intros Htests Hrun.
  destruct (processCmdLine_shape _ _ _ _ Hrun) as (o & pre & Hpre & Hcases).
  rewrite Forall_forall in Hpre.
  unfold run_tests in Hcases. rewrite Htests in Hcases.
  destruct Hcases as [->| [->| ->]]; simpl; split; try absent Hpre.
  - intros Hin. exfalso. revert Hin. change (runTests ∉ pre ++ [cerr "Output file alredy exists"]).
    absent Hpre.
  - intros Hin. exfalso. revert Hin. change (runTests ∉ pre ++ [cerr "Error opening output file"]).
    absent Hpre.
  - intros _. by exists pre.
Qed.

(** The shape of a run again, with the locals the argument loop left. *)
Lemma processCmdLine_shape_options env fuel arguments e :
  processCmdLine env fuel arguments = Done e →
  ∃ o trace0 pre,
    parse_loop (length arguments) arguments 1 (initial_options, []) = Done (o, trace0)
    ∧ Forall (λ e, setup_event e = true) pre
    ∧ (e = Returned (pre ++ [cerr "Output file alredy exists"])
       ∨ e = Returned (pre ++ [cerr "Error opening output file"])
       ∨ e = run_tests env o pre).
Proof.
  destruct arguments as [|exe rest]; first done.
  unfold processCmdLine. rewrite parse_loop_program_name.
  destruct (parse_pairs rest (initial_options, [])) as [[o trace]| |] eqn:Hp;
    [|done..].
  destruct (parse_pairs_trace _ _ _ _ _ Hp) as (more & -> & Hmore).
  unfold after_parse. cbn [lookup list_lookup].
  destruct (if printHeader o && _ then _ else _) as [header| |]; [|done..].
  destruct (if negb _ then _ else _) as [name| |]; [|done..].
  intros [= <-]. exists o, ([] ++ more).
  destruct (open_output_shape env o name
              ((([] ++ more) ++ pass_report_events o) ++ [setHeaderText header]))
    as (pre' & Hpre' & Hcases).
  { repeat (apply Forall_app; split); try done.
    - apply pass_report_events_setup.
    - by repeat constructor. }
  by exists pre'.
Qed.

(** What one flag/value pair does to [printSummary]. *)
Lemma loop_body_printSummary flag value o trace o' trace' :
  loop_body flag (Some value) (o, trace) = Done (o', trace') →
  printSummary o'
  = if String.eqb flag "-s" then negb (String.eqb value "no") else printSummary o.
Proof.
  unfold loop_body.
  destruct (String.eqb_spec flag "-h") as [->|?]; first by intros [= <- <-].
  destruct (String.eqb_spec flag "-ht") as [->|?]; first by intros [= <- <-].
  destruct (String.eqb_spec flag "-p") as [->|?]; first by intros [= <- <-].
  destruct (String.eqb_spec flag "-s") as [->|?]; first by intros [= <- <-].
  destruct (String.eqb_spec flag "-t") as [->|?]; first by intros [= <- <-].
  destruct (is_file_flag flag); by intros [= <- <-].
Qed.

(** After the pairs, [printSummary] is what the last [-s] made it. *)
Lemma parse_pairs_printSummary (pairs : list (string * string)) :
  ∀ o trace o' trace',
    parse_pairs (flat_map (λ p, [p.1; p.2]) pairs) (o, trace) = Done (o', trace') →
    printSummary o'
    = match last (filter (λ p, p.1 = "-s") pairs) with
      | Some p => negb (String.eqb p.2 "no")
      | None => printSummary o
      end.
Proof.
  induction pairs as [|[f v] pairs IH]; intros o trace o' trace'.
  - by intros [= <- <-].
  - cbn [flat_map app fst snd parse_pairs].
    destruct (loop_body f (Some v) (o, trace)) as [[o1 trace1]| |] eqn:Hb; [|done..].
    intros Hrest. rewrite (IH _ _ _ _ Hrest).
    rewrite (loop_body_printSummary _ _ _ _ _ _ Hb).
    rewrite filter_cons. simpl.
    destruct (String.eqb_spec f "-s") as [->|Hne].
    + rewrite decide_True by done. rewrite last_cons.
      by destruct (last (filter _ pairs)).
    + by rewrite decide_False by done.
Qed.

(** X23: When [runTests()] throws a [std::string], the driver prints it with a
    line end and the run returns: a run that got as far as the tests ends
    with the tests, the message and, exactly when the local [printSummary]
    the argument loop left is true, the summary.  For arguments made of
    flag/value pairs that is when the last [-s] has a value other than
    [no], or when there is no [-s]. *)
Theorem string_exception_is_reported env fuel arguments e msg :
  tests env = tests_throw_string msg →
  processCmdLine env fuel arguments = Done e →
  ∃ o trace0 trace,
    parse_loop (length arguments) arguments 1 (initial_options, []) = Done (o, trace0)
    ∧ e = Returned trace
    ∧ (runTests ∈ trace →
       ∃ pre, Forall (λ x, setup_event x = true) pre
         ∧ trace = pre ++ [runTests; cout (msg +:+ newline)]
                       ++ (if printSummary o then [summarizeTests] else []))
    ∧ (∀ exe (pairs : list (string * string)),
         arguments = exe :: flat_map (λ p, [p.1; p.2]) pairs →
         printSummary o = summary_on pairs).
Proof.
  intros Htests Hrun.
  destruct (processCmdLine_shape_options _ _ _ _ Hrun)
    as (o & trace0 & pre & Hparse & Hpre & Hcases).
  pose proof Hpre as Hsetup. rewrite Forall_forall in Hsetup.
  assert (Hsummary : ∀ exe (pairs : list (string * string)),
            arguments = exe :: flat_map (λ p, [p.1; p.2]) pairs →
            printSummary o = summary_on pairs).
  { intros exe pairs ->. rewrite parse_loop_program_name in Hparse.
    by rewrite (parse_pairs_printSummary pairs _ _ _ _ Hparse). }
  unfold run_tests in Hcases. rewrite Htests in Hcases.
  destruct Hcases as [->| [->| ->]]; exists o, trace0; eexists;
    (split; first done); (split; first done); (split; last done).
  - intros Hin. exfalso. revert Hin.
    change (runTests ∉ pre ++ [cerr "Output file alredy exists"]).
    absent Hsetup.
  - intros Hin. exfalso. revert Hin.
    change (runTests ∉ pre ++ [cerr "Error opening output file"]).
    absent Hsetup.
  - intros _. by exists pre.
Qed.

End driver_runs.

(** ** Options of the driver and what they lead to *)

Section driver_options.
Import driver.
#[local] Arguments String.append !_ _ / : simpl nomatch.
Implicit Types (o : options) (trace pre : list event) (st : options * list event).
Implicit Types (arguments rest : list string) (env : environment).

(** X24: With [-h no] the header text is empty and the [$exe] loop is not
    entered for it: the run gets to the tests whatever the program name is,
    one that holds [$exe] included, and with no fuel at all. *)
Theorem header_switched_off env fuel exe :
  processCmdLine env fuel [exe; "-h"; "no"]
  = Done (run_tests env (set_printHeader false initial_options)
            [setPassReportMode none; setHeaderText ""; setOutput_cout]).
Proof. reflexivity. Qed.

Lemma run_tests_prefix env o pre :
  ∃ more, trace_of (run_tests env o pre) = pre ++ more
    ∧ (∀ t, setFailThreshold t ∉ more) ∧ (∀ mode, setPassReportMode mode ∉ more).
Proof.
  unfold run_tests. destruct (tests env), (printSummary o); simpl;
    eexists; (split; first done);
    split; intros ?; rewrite ?elem_of_cons, ?elem_of_nil; intuition congruence.
Qed.

(** What [open_output] does comes after the trace it is given, and is
    neither a threshold nor a report mode. *)
Lemma open_output_prefix env o name pre :
  ∃ more, trace_of (open_output env o name pre) = pre ++ more
    ∧ (∀ t, setFailThreshold t ∉ more) ∧ (∀ mode, setPassReportMode mode ∉ more).
Proof.
  unfold open_output.
  destruct (String.eqb name "").
  { destruct (run_tests_prefix env o (pre ++ [setOutput_cout]))
      as (more & -> & H1 & H2).
    exists ([setOutput_cout] ++ more). rewrite app_assoc. split; first done.
    split; intros x; rewrite elem_of_app, list_elem_of_singleton;
      [specialize (H1 x)|specialize (H2 x)]; intuition congruence. }
  destruct (String.eqb (fileOpenMode o) "-f" && file_exists env _).
  { simpl. eexists. rewrite <- app_assoc. split; first done.
    split; intros ?; rewrite ?elem_of_app, ?elem_of_cons, ?elem_of_nil;
      intuition congruence. }
  destruct (opens env _ _).
  - destruct (run_tests_prefix env o
                ((pre ++ [setOutput_fileOut]) ++ [fileOut_open
                   (if String.eqb (extension env name) ""
                    then replace_extension env name ".out" else name)
                   (String.eqb (fileOpenMode o) "-fa")]))
      as (more & -> & H1 & H2).
    eexists. rewrite <- !app_assoc. split; first done.
    split; intros x; rewrite ?elem_of_app, ?elem_of_cons, ?elem_of_nil;
      [specialize (H1 x)|specialize (H2 x)]; intuition congruence.
  - simpl. eexists. rewrite <- !app_assoc. split; first done.
    split; intros ?; rewrite ?elem_of_app, ?elem_of_cons, ?elem_of_nil;
      intuition congruence.
Qed.

(** A run that ends has the trace of the loop, the report mode events and
    the header in front, and no threshold or report mode after them. *)
Lemma processCmdLine_prefix env fuel exe rest e :
  processCmdLine env fuel (exe :: rest) = Done e →
  ∃ o trace header more,
    parse_pairs rest (initial_options, []) = Done (o, trace)
    ∧ trace_of e = trace ++ pass_report_events o ++ [setHeaderText header] ++ more
    ∧ (∀ t, setFailThreshold t ∉ more) ∧ (∀ mode, setPassReportMode mode ∉ more).
Proof.
  rewrite processCmdLine_pairs.
  destruct (parse_pairs rest (initial_options, [])) as [[o trace]| |] eqn:Hp;
    [|done..].
  unfold after_parse. cbn [lookup list_lookup].
  destruct (if printHeader o && _ then _ else _) as [header| |]; [|done..].
  destruct (if negb _ then _ else _) as [name| |]; [|done..].
  intros [= <-].
  destruct (open_output_prefix env o name
              ((trace ++ pass_report_events o) ++ [setHeaderText header]))
    as (more & Hmore & H1 & H2).
  exists o, trace, header, more. rewrite Hmore, <- !app_assoc. by split_and!.
Qed.

Lemma is_file_flag_nonempty flag :
  is_file_flag flag = true → String.eqb flag "" = false.
Proof. destruct (String.eqb_spec flag "") as [->|]; done. Qed.

(** What one flag/value pair does to the two locals the report mode
    depends on. *)
Lemma loop_body_mode_fields flag value o trace o' trace' :
  flag ≠ "-p" →
  loop_body flag (Some value) (o, trace) = Done (o', trace') →
  passReportModeName o' = passReportModeName o
  ∧ fileOpenMode o' = (if is_file_flag flag then flag else fileOpenMode o).
Proof.
  intros Hp. unfold loop_body.
  destruct (String.eqb_spec flag "-h") as [->|?]; first by intros [= <- <-].
  destruct (String.eqb_spec flag "-ht") as [->|?]; first by intros [= <- <-].
  destruct (String.eqb_spec flag "-p") as [->|?]; first done.
  destruct (String.eqb_spec flag "-s") as [->|?]; first by intros [= <- <-].
  destruct (String.eqb_spec flag "-t") as [->|?]; first by intros [= <- <-].
  destruct (is_file_flag flag); by intros [= <- <-].
Qed.

Lemma parse_pairs_mode_fields (pairs : list (string * string)) :
  ∀ o trace o' trace',
    (∀ p, p ∈ pairs → p.1 ≠ "-p") →
    parse_pairs (flat_map (λ p, [p.1; p.2]) pairs) (o, trace) = Done (o', trace') →
    passReportModeName o' = passReportModeName o
    ∧ String.eqb (fileOpenMode o') ""
      = String.eqb (fileOpenMode o) "" && negb (existsb (λ p, is_file_flag p.1) pairs).
Proof.
  induction pairs as [|[f v] pairs IH]; intros o trace o' trace' Hp.
  - intros [= <- <-]. by rewrite andb_true_r.
  - cbn [flat_map app fst snd parse_pairs existsb].
    destruct (loop_body f (Some v) (o, trace)) as [[o1 trace1]| |] eqn:Hb; [|done..].
    intros Hrest.
    destruct (loop_body_mode_fields f v o trace o1 trace1) as [Hm Hf]; [|done|].
    { apply (Hp (f, v)). by left. }
    destruct (IH o1 trace1 o' trace') as [Hm' Hf']; [|done|].
    { intros p Hin. apply Hp. by right. }
    split; first congruence. rewrite Hf', Hf.
    destruct (is_file_flag f) eqn:Hff; simpl.
    + rewrite (is_file_flag_nonempty f Hff). by rewrite andb_false_r.
    + done.
Qed.

Lemma digit_of_range c d : digit_of c = Some d → (0 <= d <= 9)%Z.
Proof.
  unfold digit_of.
  destruct (Z.leb_spec 48 (Z.of_nat (Ascii.nat_of_ascii c)));
    destruct (Z.leb_spec (Z.of_nat (Ascii.nat_of_ascii c)) 57); simpl; try done.
  intros [= <-]. lia.
Qed.

Lemma leading_digits_range s : Forall (λ d, 0 <= d <= 9)%Z (leading_digits s).
Proof.
  induction s as [|c s IH]; simpl; first done.
  destruct (digit_of c) as [d|] eqn:Hd; last done.
  constructor; [by apply (digit_of_range c)|done].
Qed.

Lemma decimal_value_nonneg ds :
  Forall (λ d, 0 <= d <= 9)%Z ds → (0 <= decimal_value ds)%Z.
Proof.
  unfold decimal_value. intros Hds.
  enough (∀ acc, (0 <= acc)%Z
            → (0 <= fold_left (λ acc d, 10 * acc + d)%Z ds acc)%Z) as H
    by (apply H; lia).
  induction Hds as [|d ds Hd Hds IH]; intros acc Hacc; simpl; first done.
  apply IH. lia.
Qed.

(** [from_chars] keeps a threshold within the range of [unsigned short]. *)
Lemma from_chars_range s value :
  (0 <= value <= USHRT_MAX)%Z → (0 <= from_chars s value <= USHRT_MAX)%Z.
Proof.
  intros Hv. unfold from_chars.
  pose proof (decimal_value_nonneg _ (leading_digits_range s)) as Hnn.
  destruct (leading_digits s) as [|d ds]; first done.
  destruct (Z.leb_spec (decimal_value (d :: ds)) USHRT_MAX); lia.
Qed.

Lemma loop_body_thresholds flag next o trace o' trace' :
  (0 <= failThreshold o <= USHRT_MAX)%Z →
  loop_body flag next (o, trace) = Done (o', trace') →
  ∃ ts, trace' = trace ++ (setFailThreshold <$> ts)
    ∧ Forall (λ t, 0 <= t <= USHRT_MAX)%Z ts
    ∧ (0 <= failThreshold o' <= USHRT_MAX)%Z.
Proof.
  intros Ho. unfold loop_body.
  destruct (String.eqb flag "-h").
  { destruct next; last done. intros [= <- <-]. exists []. by rewrite app_nil_r. }
  destruct (String.eqb flag "-ht").
  { destruct next; last done. intros [= <- <-]. exists []. by rewrite app_nil_r. }
  destruct (String.eqb flag "-p").
  { destruct next; last done. intros [= <- <-]. exists []. by rewrite app_nil_r. }
  destruct (String.eqb flag "-s").
  { destruct next; last done. intros [= <- <-]. exists []. by rewrite app_nil_r. }
  destruct (String.eqb flag "-t").
  { destruct next as [v|]; last done. intros [= <- <-].
    pose proof (from_chars_range v _ Ho).
    exists [from_chars v (failThreshold o)].
    split; [done|split; [by apply Forall_singleton|done]]. }
  destruct (is_file_flag flag).
  { destruct next; last done. intros [= <- <-]. exists []. by rewrite app_nil_r. }
  intros [= <- <-]. exists []. by rewrite app_nil_r.
Qed.

Lemma parse_pairs_thresholds : ∀ rest o trace o' trace',
  (0 <= failThreshold o <= USHRT_MAX)%Z →
  parse_pairs rest (o, trace) = Done (o', trace') →
  ∃ ts, trace' = trace ++ (setFailThreshold <$> ts)
    ∧ Forall (λ t, 0 <= t <= USHRT_MAX)%Z ts
    ∧ (0 <= failThreshold o' <= USHRT_MAX)%Z.
Proof.
  induction rest as [rest IH] using (induction_ltof1 _ length).
  unfold ltof in IH. intros o trace o' trace' Ho.
  destruct rest as [|flag [|value rest]]; cbn [parse_pairs].
  - intros [= <- <-]. exists []. by rewrite app_nil_r.
  - by apply loop_body_thresholds.
  - destruct (loop_body flag (Some value) (o, trace)) as [[o1 trace1]| |] eqn:Hb;
      [|done..].
    intros Hrest.
    destruct (loop_body_thresholds _ _ _ _ _ _ Ho Hb) as (ts1 & -> & Hts1 & Ho1).
    destruct (IH rest ltac:(simpl; lia) _ _ _ _ Ho1 Hrest) as (ts2 & -> & Hts2 & Ho').
    exists (ts1 ++ ts2). rewrite fmap_app, app_assoc.
    split; [done|split; [by apply Forall_app|done]].
Qed.

Lemma initial_threshold_range :
  (0 <= failThreshold initial_options <= USHRT_MAX)%Z.
Proof. unfold USHRT_MAX. simpl. lia. Qed.

(** X25: With no [-p] among the flags the report mode stays [auto], which the
    driver resolves once: the trace of a run that ends holds exactly one
    report mode event, [indicate] when one of [-f], [-fo], [-fa] names an
    output file, [none] when none does. *)
Theorem automatic_report_mode env fuel exe (pairs : list (string * string)) e :
  (∀ p, p ∈ pairs → p.1 ≠ "-p") →
  processCmdLine env fuel (exe :: flat_map (λ p, [p.1; p.2]) pairs) = Done e →
  (∀ mode,
     setPassReportMode mode ∈ trace_of e
     ↔ mode = (if existsb (λ p, is_file_flag p.1) pairs then indicate else none))
  ∧ ∃ before after,
      trace_of e
      = before
        ++ setPassReportMode
             (if existsb (λ p, is_file_flag p.1) pairs then indicate else none)
        :: after
      ∧ (∀ mode, setPassReportMode mode ∉ before)
      ∧ (∀ mode, setPassReportMode mode ∉ after).
Proof.
  intros Hp Hrun.
  destruct (processCmdLine_prefix _ _ _ _ _ Hrun)
    as (o & trace & header & more & Hparse & -> & _ & Hmore).
  destruct (parse_pairs_mode_fields pairs _ _ _ _ Hp Hparse) as [Hm Hf].
  destruct (parse_pairs_thresholds _ _ _ _ _ initial_threshold_range Hparse)
    as (ts & -> & _ & _).
  assert (Hpass : pass_report_events o
                  = [setPassReportMode
                       (if existsb (λ p, is_file_flag p.1) pairs
                        then indicate else none)]).
  { unfold pass_report_events. rewrite Hm, Hf. simpl.
    by destruct (existsb _ pairs). }
  rewrite Hpass. simpl. split.
  - intros mode. rewrite !elem_of_app, !elem_of_cons, list_elem_of_fmap.
    split.
    + intros [[t [? _]]|[Heq|[Heq|Hin]]];
        [done|congruence|done|by apply Hmore in Hin].
    + intros ->. right. by left.
  - exists (setFailThreshold <$> ts), (setHeaderText header :: more).
    split_and!; first done.
    + intros mode. rewrite list_elem_of_fmap. by intros [t [? _]].
    + intros mode. rewrite elem_of_cons. intros [?|Hin]; first done.
      by apply Hmore in Hin.
Qed.

(** X26: Every threshold the driver hands to the tester fits an
    [unsigned short], whatever the arguments: a [-t] value that does not
    start with a digit, or whose number is too large, passes on the
    threshold in force. *)
Theorem thresholds_fit_unsigned_short env fuel arguments e t :
  processCmdLine env fuel arguments = Done e →
  setFailThreshold t ∈ trace_of e →
  (0 <= t <= USHRT_MAX)%Z.
Proof.
  destruct arguments as [|exe rest]; first done.
  intros Hrun.
  destruct (processCmdLine_prefix _ _ _ _ _ Hrun)
    as (o & trace & header & more & Hparse & -> & Hmore & _).
  destruct (parse_pairs_thresholds _ _ _ _ _ initial_threshold_range Hparse)
    as (ts & -> & Hts & _).
  rewrite Forall_forall in Hts. simpl.
  rewrite !elem_of_app, !elem_of_cons, list_elem_of_fmap.
  intros [[t' [[= ->] Hin]]|[Hin|[Heq|Hin]]].
  - by apply Hts.
  - exfalso. unfold pass_report_events in Hin.
    repeat destruct (String.eqb _ _);
      rewrite ?elem_of_cons, ?elem_of_nil in Hin; intuition congruence.
  - done.
  - by apply Hmore in Hin.
Qed.

(** X27: [-f] does not overwrite: when the output file exists the driver
    prints its diagnostic and returns before the file is opened or the
    tests are run, where [-fo] and [-fa] go on to open the file. *)
Theorem only_f_protects_existing_file env (fuel : nat) exe flag name :
  is_file_flag flag = true →
  dollars (filename_no_extension env exe) = 0%nat →
  dollars name = 0%nat → name ≠ "" →
  file_exists env
    (if String.eqb (extension env name) "" then replace_extension env name ".out"
     else name) = true →
  ∃ e,
    processCmdLine env (S fuel) [exe; flag; name] = Done e
    ∧ (flag = "-f" →
       e = Returned
             [setPassReportMode indicate;
              setHeaderText ("Running " +:+ filename_no_extension env exe);
              setOutput_fileOut; cerr "Output file alredy exists"])
    ∧ (flag ≠ "-f" →
       ∃ path, fileOut_open path (String.eqb flag "-fa") ∈ trace_of e
               ∧ file_exists env path = true).
Proof.
  intros Hflag Hstem Hname Hne Hexists.
  assert (Hf : find "$exe" ("Running " +:+ filename_no_extension env exe) = None).
  { apply find_exe_no_dollars. by rewrite dollars_app. }
  assert (Hheader : expand (S fuel) defaultHeaderText (filename_no_extension env exe)
                    = Done ("Running " +:+ filename_no_extension env exe)).
  { simpl. unfold replace. simpl. rewrite string_app_nil_r.
    simpl in Hf. destruct fuel; simpl; by rewrite Hf. }
  assert (Hout : expand (S fuel) name (filename_no_extension env exe) = Done name).
  { simpl. by rewrite (find_exe_no_dollars name Hname). }
  assert (Hparse : parse_pairs [flag; name] (initial_options, [])
                   = Done (set_output flag name initial_options, [])).
  { cbn [parse_pairs]. unfold loop_body. revert Hflag. unfold is_file_flag.
    destruct (String.eqb_spec flag "-h") as [->|]; first done.
    destruct (String.eqb_spec flag "-ht") as [->|]; first done.
    destruct (String.eqb_spec flag "-p") as [->|]; first done.
    destruct (String.eqb_spec flag "-s") as [->|]; first done.
    destruct (String.eqb_spec flag "-t") as [->|]; first done.
    by intros ->. }
  assert (Hnonempty : String.eqb name "" = false) by by apply String.eqb_neq.
  rewrite processCmdLine_pairs, Hparse.
  unfold after_parse, set_output, initial_options.
  cbn [lookup list_lookup printHeader headerText outputFilename fileOpenMode
       passReportModeName printSummary failThreshold].
  cbn [andb negb]. change (String.eqb defaultHeaderText "") with false.
  cbn [andb negb]. rewrite Hheader, Hnonempty. cbn [negb]. rewrite Hout.
  eexists. split; first done.
  unfold open_output. rewrite Hnonempty.
  cbn [fileOpenMode]. rewrite Hexists.
  unfold pass_report_events.
  cbn [passReportModeName fileOpenMode].
  change (String.eqb "auto" "detail") with false.
  change (String.eqb "auto" "indicate") with false.
  change (String.eqb "auto" "none") with false.
  change (String.eqb "auto" "auto") with true.
  rewrite (is_file_flag_nonempty flag Hflag). cbn [app].
  split.
  - intros ->. done.
  - intros Hnf. apply String.eqb_neq in Hnf. rewrite Hnf. cbn [andb].
    eexists. split; last exact Hexists.
    destruct (opens env _ _).
    + unfold run_tests. destruct (tests env); simpl;
        rewrite ?elem_of_app, ?elem_of_cons; tauto.
    + simpl. rewrite ?elem_of_app, ?elem_of_cons. tauto.
Qed.

End driver_options.

(** ** The further properties on the samples *)

Lemma unchecked_access_out_of_bounds_witness :
  is_array 3 sample 1%positive [1; 2; 3]
  ∧ 3 <= 3
  ∧ array.operator_subscript 1%positive 3 sample = Undefined.
Proof.
  assert (Ha : is_array 3 sample 1%positive [1; 2; 3]) by (split; reflexivity).
  assert (Hr : 3 <= 3) by lia.
  exact (conj Ha (conj Hr
    (proj1 (unchecked_access_out_of_bounds 3 sample 1%positive [1; 2; 3] 3 Ha Hr)))).
Defined.

Lemma front_back_of_empty_undefined_witness :
  is_array 0 sample 3%positive []
  ∧ array.front 3%positive sample = Undefined.
Proof.
  assert (Ha : is_array 0 sample 3%positive []) by (split; reflexivity).
  exact (conj Ha (proj1 (front_back_of_empty_undefined sample 3%positive [] Ha))).
Defined.

Lemma write_at_changes_one_element_witness :
  is_array 3 sample 1%positive [1; 2; 3]
  ∧ 0 <= 1 < 3
  ∧ ∃ m', write_at 3 1%positive 1 9 sample = Normal tt m'
          ∧ is_array 3 m' 1%positive (<[Z.to_nat 1 := 9]> [1; 2; 3]).
Proof.
  assert (Ha : is_array 3 sample 1%positive [1; 2; 3]) by (split; reflexivity).
  assert (Hr : 0 <= 1 < 3) by lia.
  destruct (write_at_changes_one_element 3 sample 1%positive [1; 2; 3] 1 9 Ha Hr)
    as (m' & Hw & Ha' & _).
  exact (conj Ha (conj Hr (ex_intro _ m' (conj Hw Ha')))).
Defined.

Lemma fill_changes_only_its_array_witness :
  is_array 3 sample 1%positive [1; 2; 3]
  ∧ load (Ptr 2%positive 0) sample = Normal 4 sample
  ∧ ∃ m', array.fill 3 1%positive (Ptr 2%positive 0) sample = Normal tt m'
          ∧ free_store m' = free_store sample.
Proof.
  assert (Ha : is_array 3 sample 1%positive [1; 2; 3]) by (split; reflexivity).
  assert (Hu : load (Ptr 2%positive 0) sample = Normal 4 sample) by reflexivity.
  destruct (fill_changes_only_its_array 3 sample 1%positive [1; 2; 3]
              (Ptr 2%positive 0) 4 Ha Hu) as (m' & Hfill & _ & Hfs & _).
  exact (conj Ha (conj Hu (ex_intro _ m' (conj Hfill Hfs)))).
Defined.

Lemma swap_twice_restores_witness :
  is_array 3 sample 1%positive [1; 2; 3]
  ∧ is_array 3 sample 2%positive [4; 5; 6]
  ∧ 1%positive ≠ 2%positive
  ∧ swap_twice 3 1%positive 2%positive sample = Normal tt sample.
Proof.
  assert (Ha : is_array 3 sample 1%positive [1; 2; 3]) by (split; reflexivity).
  assert (Hb : is_array 3 sample 2%positive [4; 5; 6]) by (split; reflexivity).
  assert (Hne : 1%positive ≠ 2%positive) by (intros H; discriminate H).
  exact (conj Ha (conj Hb (conj Hne
    (swap_twice_restores 3 sample 1%positive 2%positive _ _ Ha Hb Hne)))).
Defined.

Lemma swap_symmetric_and_local_witness :
  is_array 3 sample 1%positive [1; 2; 3]
  ∧ is_array 3 sample 2%positive [4; 5; 6]
  ∧ 1%positive ≠ 2%positive
  ∧ ∃ m', array.swap 3 1%positive 2%positive sample = Normal tt m'
          ∧ array.swap 3 2%positive 1%positive sample = Normal tt m'.
Proof.
  assert (Ha : is_array 3 sample 1%positive [1; 2; 3]) by (split; reflexivity).
  assert (Hb : is_array 3 sample 2%positive [4; 5; 6]) by (split; reflexivity).
  assert (Hne : 1%positive ≠ 2%positive) by (intros H; discriminate H).
  destruct (swap_symmetric_and_local 3 sample 1%positive 2%positive _ _ Ha Hb Hne)
    as (m' & H1 & H2 & _).
  exact (conj Ha (conj Hb (conj Hne (ex_intro _ m' (conj H1 H2))))).
Defined.

Lemma data_addresses_the_elements_witness :
  is_array 3 sample 1%positive [1; 2; 3]
  ∧ 0 <= 1 < 3
  ∧ array.data 3 1%positive sample = Normal (Ptr 1%positive 0) sample.
Proof.
  assert (Ha : is_array 3 sample 1%positive [1; 2; 3]) by (split; reflexivity).
  assert (Hr : 0 <= 1 < 3) by lia.
  exact (conj Ha (conj Hr
    (proj1 (data_addresses_the_elements 3 sample 1%positive [1; 2; 3] 1 Ha Hr)))).
Defined.

Lemma begin_equals_end_iff_empty_witness :
  is_array 3 sample 1%positive [1; 2; 3]
  ∧ begin_equals_end 3 1%positive sample = array.empty 3 1%positive sample.
Proof.
  assert (Ha : is_array 3 sample 1%positive [1; 2; 3]) by (split; reflexivity).
  exact (conj Ha
    (proj1 (begin_equals_end_iff_empty 3 sample 1%positive [1; 2; 3] Ha))).
Defined.

Lemma begin_rbegin_reach_front_back_witness :
  is_array 3 sample 1%positive [1; 2; 3]
  ∧ 0 < 3 < size_type_modulus
  ∧ deref_begin 3 1%positive sample = array.front 1%positive sample.
Proof.
  assert (Ha : is_array 3 sample 1%positive [1; 2; 3]) by (split; reflexivity).
  assert (Hr : 0 < 3 < size_type_modulus) by (unfold size_type_modulus; lia).
  exact (conj Ha (conj Hr
    (proj1 (begin_rbegin_reach_front_back 3 sample 1%positive [1; 2; 3] Ha Hr)))).
Defined.

Lemma end_rend_not_dereferenceable_witness :
  is_array 3 sample 1%positive [1; 2; 3]
  ∧ deref_end 3 1%positive sample = Undefined
  ∧ deref_rend 3 1%positive sample = Undefined.
Proof.
  assert (Ha : is_array 3 sample 1%positive [1; 2; 3]) by (split; reflexivity).
  exact (conj Ha (end_rend_not_dereferenceable 3 sample 1%positive [1; 2; 3] Ha)).
Defined.

Lemma write_iterator_read_subscript_witness :
  is_array 3 sample 1%positive [1; 2; 3]
  ∧ 0 <= 2 < 3
  ∧ ∃ m', write_iterator 3 1%positive 2 9 sample = Normal tt m'
          ∧ write_subscript 1%positive 2 9 sample = Normal tt m'
          ∧ read_subscript 1%positive 2 m' = Normal 9 m'.
Proof.
  assert (Ha : is_array 3 sample 1%positive [1; 2; 3]) by (split; reflexivity).
  assert (Hr : 0 <= 2 < 3) by lia.
  exact (conj Ha (conj Hr
    (write_iterator_read_subscript 3 sample 1%positive [1; 2; 3] 2 9 Ha Hr))).
Defined.

Lemma iterator_follows_elements_of_swap_witness :
  is_array 3 sample 1%positive [1; 2; 3]
  ∧ is_array 3 sample 2%positive [4; 5; 6]
  ∧ 1%positive ≠ 2%positive
  ∧ 0 <= 1 < 3
  ∧ [4; 5; 6] !! Z.to_nat 1 = Some 5
  ∧ iterator_across_swap 3 1%positive 2%positive 1 sample
    = Normal 5 (Machine (<[2%positive := [1; 2; 3]]>
                           (<[1%positive := [4; 5; 6]]> (objects sample)))
                        (free_store sample)).
Proof.
  assert (Ha : is_array 3 sample 1%positive [1; 2; 3]) by (split; reflexivity).
  assert (Hb : is_array 3 sample 2%positive [4; 5; 6]) by (split; reflexivity).
  assert (Hne : 1%positive ≠ 2%positive) by (intros H; discriminate H).
  assert (Hr : 0 <= 1 < 3) by lia.
  assert (Hy : [4; 5; 6] !! Z.to_nat 1 = Some 5) by reflexivity.
  exact (conj Ha (conj Hb (conj Hne (conj Hr (conj Hy
    (iterator_follows_elements_of_swap 3 sample 1%positive 2%positive
       [1; 2; 3] [4; 5; 6] 1 5 Ha Hb Hne Hr Hy)))))).
Defined.

Lemma fill_then_traverse_replicates_witness :
  is_array 3 sample 1%positive [1; 2; 3]
  ∧ load (Ptr 1%positive 1) sample = Normal 2 sample
  ∧ fill_then_traverse 3 (Z.to_nat 3 + 0) 1%positive (Ptr 1%positive 1) sample
    = Normal (replicate (Z.to_nat 3) 2)
        (Machine (<[1%positive := replicate (Z.to_nat 3) 2]> (objects sample))
                 (free_store sample)).
Proof.
  assert (Ha : is_array 3 sample 1%positive [1; 2; 3]) by (split; reflexivity).
  assert (Hu : load (Ptr 1%positive 1) sample = Normal 2 sample) by reflexivity.
  exact (conj Ha (conj Hu
    (fill_then_traverse_replicates 3 sample 1%positive [1; 2; 3]
       (Ptr 1%positive 1) 2 0%nat Ha Hu))).
Defined.

Lemma at_failure_allocates_witness :
  3 <= 5
  ∧ ∃ p m', array.at_ 3 1%positive 5 sample = Throws (thrown_pointer p) m'
            ∧ free_store sample !! p = None
            ∧ free_store m' !! p = Some (out_of_range "array index out of range").
Proof.
  assert (Hr : 3 <= 5) by lia.
  destruct (at_failure_allocates 3 sample 1%positive 5 Hr)
    as (p & m' & H1 & H2 & H3 & _).
  exact (conj Hr (ex_intro _ p (ex_intro _ m' (conj H1 (conj H2 H3))))).
Defined.

Lemma unrecognised_flag_hides_next_argument_witness :
  driver.recognised "--verbose" = false
  ∧ driver.processCmdLine sample_env 1
      ["driver"; "-s"; "no"; "--verbose"; "-h"; "no"]
    = driver.processCmdLine sample_env 1 ["driver"; "-s"; "no"; "no"].
Proof.
  assert (Hx : driver.recognised "--verbose" = false) by reflexivity.
  exact (conj Hx
    (unrecognised_flag_hides_next_argument sample_env 1 "driver" [("-s", "no")]
       "--verbose" "-h" ["no"] Hx)).
Defined.

Lemma trailing_flag_reads_past_the_end_witness :
  driver.recognised "-t" = true
  ∧ driver.processCmdLine sample_env 1 ["driver"; "-s"; "no"; "-t"]
    = driver.UndefinedBehaviour.
Proof.
  assert (Hx : driver.recognised "-t" = true) by reflexivity.
  exact (conj Hx
    (trailing_flag_reads_past_the_end sample_env 1 "driver" [("-s", "no")] "-t" Hx)).
Defined.

Lemma expand_ends_without_dollars_witness :
  dollars "driver" = 0%nat
  ∧ ∃ r, driver.expand (dollars "$exe: $exe" + 0) "$exe: $exe" "driver"
         = driver.Done r
         ∧ driver.find "$exe" r = None.
Proof.
  assert (Hs : dollars "driver" = 0%nat) by reflexivity.
  exact (conj Hs (expand_ends_without_dollars "driver" 0 Hs "$exe: $exe")).
Defined.

Lemma expand_never_ends_on_own_macro_witness :
  driver.find "$exe" "my$exe" = Some 2%nat
  ∧ driver.find "$exe" "Running $exe" = Some 8%nat
  ∧ driver.expand 1000 "Running $exe" "my$exe" = driver.NoFuel.
Proof.
  assert (Hs : driver.find "$exe" "my$exe" = Some 2%nat) by reflexivity.
  assert (Ht : driver.find "$exe" "Running $exe" = Some 8%nat) by reflexivity.
  exact (conj Hs (conj Ht
    (proj1 (expand_never_ends_on_own_macro "my$exe" 2 Hs) 1000%nat
       "Running $exe" 8%nat Ht))).
Defined.

Lemma default_run_witness :
  dollars (driver.filename_no_extension sample_env "./driver.exe") = 0%nat
  ∧ driver.processCmdLine sample_env 1 ["./driver.exe"]
    = driver.Done
        (driver.Returned
           [driver.setPassReportMode driver.none;
            driver.setHeaderText "Running driver";
            driver.setOutput_cout; driver.runTests; driver.summarizeTests]).
Proof.
  assert (Hs : dollars (driver.filename_no_extension sample_env "./driver.exe")
               = 0%nat) by reflexivity.
  exact (conj Hs (default_run sample_env 0 "./driver.exe" Hs)).
Defined.

Lemma diagnostic_means_tests_not_run_witness :
  driver.processCmdLine sample_env 1 ["driver"; "-f"; "results"]
  = driver.Done
      (driver.Returned
         [driver.setPassReportMode driver.indicate;
          driver.setHeaderText "Running driver";
          driver.setOutput_fileOut;
          driver.cerr "Output file alredy exists"])
  ∧ driver.runTests
    ∉ [driver.setPassReportMode driver.indicate;
       driver.setHeaderText "Running driver";
       driver.setOutput_fileOut;
       driver.cerr "Output file alredy exists"].
Proof.
  assert (Hrun : driver.processCmdLine sample_env 1 ["driver"; "-f"; "results"]
                 = driver.Done
                     (driver.Returned
                        [driver.setPassReportMode driver.indicate;
                         driver.setHeaderText "Running driver";
                         driver.setOutput_fileOut;
                         driver.cerr "Output file alredy exists"]))
    by reflexivity.
  assert (Hin : driver.cerr "Output file alredy exists"
                ∈ [driver.setPassReportMode driver.indicate;
                   driver.setHeaderText "Running driver";
                   driver.setOutput_fileOut;
                   driver.cerr "Output file alredy exists"]).
  { rewrite !elem_of_cons. tauto. }
  exact (conj Hrun
    (proj1 (diagnostic_means_tests_not_run sample_env 1 _ _ _ Hrun Hin))).
Defined.

Lemma foreign_exception_skips_summary_witness :
  driver.tests (sample_env_with driver.tests_throw_other) = driver.tests_throw_other
  ∧ driver.processCmdLine (sample_env_with driver.tests_throw_other) 1 ["driver"]
    = driver.Done
        (driver.Escaped
           [driver.setPassReportMode driver.none;
            driver.setHeaderText "Running driver";
            driver.setOutput_cout; driver.runTests])
  ∧ driver.summarizeTests
    ∉ [driver.setPassReportMode driver.none;
       driver.setHeaderText "Running driver";
       driver.setOutput_cout; driver.runTests].
Proof.
  assert (Ht : driver.tests (sample_env_with driver.tests_throw_other)
               = driver.tests_throw_other) by reflexivity.
  assert (Hrun : driver.processCmdLine (sample_env_with driver.tests_throw_other)
                   1 ["driver"]
                 = driver.Done
                     (driver.Escaped
                        [driver.setPassReportMode driver.none;
                         driver.setHeaderText "Running driver";
                         driver.setOutput_cout; driver.runTests]))
    by reflexivity.
  exact (conj Ht (conj Hrun
    (proj1 (foreign_exception_skips_summary _ 1 _ _ Ht Hrun)))).
Defined.

Lemma string_exception_is_reported_witness :
  driver.tests (sample_env_with (driver.tests_throw_string "stop"))
  = driver.tests_throw_string "stop"
  ∧ driver.processCmdLine (sample_env_with (driver.tests_throw_string "stop"))
      1 ["driver"; "-s"; "no"]
    = driver.Done
        (driver.Returned
           [driver.setPassReportMode driver.none;
            driver.setHeaderText "Running driver";
            driver.setOutput_cout; driver.runTests;
            driver.cout ("stop" +:+ driver.newline)])
  ∧ ∃ o trace0,
      driver.parse_loop (length ["driver"; "-s"; "no"]) ["driver"; "-s"; "no"] 1
        (driver.initial_options, [])
      = driver.Done (o, trace0)
      ∧ driver.printSummary o = summary_on [("-s", "no")].
Proof.
  assert (Ht : driver.tests (sample_env_with (driver.tests_throw_string "stop"))
               = driver.tests_throw_string "stop") by reflexivity.
  assert (Hrun : driver.processCmdLine
                   (sample_env_with (driver.tests_throw_string "stop")) 1
                   ["driver"; "-s"; "no"]
                 = driver.Done
                     (driver.Returned
                        [driver.setPassReportMode driver.none;
                         driver.setHeaderText "Running driver";
                         driver.setOutput_cout; driver.runTests;
                         driver.cout ("stop" +:+ driver.newline)]))
    by reflexivity.
  destruct (string_exception_is_reported _ 1 _ _ "stop" Ht Hrun)
    as (o & trace0 & trace & Hparse & _ & _ & Hs).
  exact (conj Ht (conj Hrun
    (ex_intro _ o (ex_intro _ trace0
       (conj Hparse (Hs "driver" [("-s", "no")] eq_refl)))))).
Defined.

Lemma automatic_report_mode_witness :
  (∀ p, p ∈ [("-fo", "results")] → p.1 ≠ "-p")
  ∧ driver.processCmdLine sample_env 1 ["driver"; "-fo"; "results"]
    = driver.Done
        (driver.Returned
           [driver.setPassReportMode driver.indicate;
            driver.setHeaderText "Running driver";
            driver.setOutput_fileOut;
            driver.fileOut_open "results.out" false;
            driver.runTests; driver.summarizeTests])
  ∧ (driver.setPassReportMode driver.indicate
     ∈ [driver.setPassReportMode driver.indicate;
        driver.setHeaderText "Running driver";
        driver.setOutput_fileOut;
        driver.fileOut_open "results.out" false;
        driver.runTests; driver.summarizeTests]).
Proof.
  assert (Hp : ∀ p, p ∈ [("-fo", "results")] → p.1 ≠ "-p").
  { intros p Hin. apply list_elem_of_singleton in Hin. rewrite Hin. simpl.
    intros H. discriminate H. }
  assert (Hrun : driver.processCmdLine sample_env 1
                   ("driver" :: flat_map (λ p, [p.1; p.2]) [("-fo", "results")])
                 = driver.Done
                     (driver.Returned
                        [driver.setPassReportMode driver.indicate;
                         driver.setHeaderText "Running driver";
                         driver.setOutput_fileOut;
                         driver.fileOut_open "results.out" false;
                         driver.runTests; driver.summarizeTests]))
    by reflexivity.
  exact (conj Hp (conj Hrun
    (proj2 (proj1 (automatic_report_mode sample_env 1 "driver"
                     [("-fo", "results")] _ Hp Hrun) driver.indicate) eq_refl))).
Defined.

Lemma thresholds_fit_unsigned_short_witness :
  driver.processCmdLine sample_env 1 ["driver"; "-t"; "7"; "-t"; "70000"]
  = driver.Done
      (driver.Returned
         [driver.setFailThreshold 7; driver.setFailThreshold 7;
          driver.setPassReportMode driver.none;
          driver.setHeaderText "Running driver";
          driver.setOutput_cout; driver.runTests; driver.summarizeTests])
  ∧ (0 <= 7 <= driver.USHRT_MAX)%Z.
Proof.
  assert (Hrun : driver.processCmdLine sample_env 1
                   ["driver"; "-t"; "7"; "-t"; "70000"]
                 = driver.Done
                     (driver.Returned
                        [driver.setFailThreshold 7; driver.setFailThreshold 7;
                         driver.setPassReportMode driver.none;
                         driver.setHeaderText "Running driver";
                         driver.setOutput_cout; driver.runTests;
                         driver.summarizeTests]))
    by reflexivity.
  assert (Hin : driver.setFailThreshold 7
                ∈ driver.trace_of
                    (driver.Returned
                       [driver.setFailThreshold 7; driver.setFailThreshold 7;
                        driver.setPassReportMode driver.none;
                        driver.setHeaderText "Running driver";
                        driver.setOutput_cout; driver.runTests;
                        driver.summarizeTests])).
  { simpl. rewrite !elem_of_cons. tauto. }
  exact (conj Hrun (thresholds_fit_unsigned_short sample_env 1 _ _ 7 Hrun Hin)).
Defined.

Lemma only_f_protects_existing_file_witness :
  driver.is_file_flag "-f" = true
  ∧ dollars (driver.filename_no_extension sample_env "driver") = 0%nat
  ∧ dollars "results" = 0%nat
  ∧ "results" ≠ ""
  ∧ ∃ e, driver.processCmdLine sample_env 1 ["driver"; "-f"; "results"]
         = driver.Done e.
Proof.
  assert (Hf : driver.is_file_flag "-f" = true) by reflexivity.
  assert (Hs : dollars (driver.filename_no_extension sample_env "driver") = 0%nat)
    by reflexivity.
  assert (Hn : dollars "results" = 0%nat) by reflexivity.
  assert (Hne : "results" ≠ "") by (intros H; discriminate H).
  destruct (only_f_protects_existing_file sample_env 0 "driver" "-f" "results"
              Hf Hs Hn Hne eq_refl) as (e & He & _).
  exact (conj Hf (conj Hs (conj Hn (conj Hne (ex_intro _ e He))))).
Defined.
